(** * Mole Raycast extension: output parsing, size model and engine invocation

    Shallow embedding of the core routines of [src/src/utils.ts],
    [src/src/clean.tsx] and [src/src/purge.tsx].

    Modelling conventions:
    - a JavaScript string is its list of UTF-16 code units ([jstr]);
    - a finite JavaScript number is an exact rational ([Q]); where the code
      can produce [NaN] the number is an [option Q] with [None] for [NaN].
      Multiplications and divisions by powers of 1024 are exact on doubles
      too; the rounding of [parseFloat] to the nearest double is not modelled;
    - regular expressions are run by a small backtracking matcher with the
      ECMAScript priorities (greedy/lazy repetition, leftmost alternative). *)

From Stdlib Require Import String Ascii List ZArith QArith Qround Qfield Lqa Bool Lia.
From Stdlib Require Import Sorted Permutation.
Import ListNotations.

Open Scope Z_scope.

(** ** Strings *)

Definition jstr := list Z.

Definition s2j (s : string) : jstr :=
  map (fun a => Z.of_nat (nat_of_ascii a)) (list_ascii_of_string s).

Definition ESC : Z := 27.
Definition BEL : Z := 7.
Definition NL : Z := 10.
Definition ARROW_HEAD : Z := 10148.   (* U+27A4 '➤' *)
Definition ARROW_RIGHT : Z := 8594.   (* U+2192 '→' *)
Definition TRIANGLE : Z := 9654.      (* U+25B6 '▶' *)
Definition BULLET : Z := 8226.        (* U+2022 '•' *)
Definition MIDDOT : Z := 183.         (* U+00B7 '·' *)
Definition CIRCLED_SLASH : Z := 8856. (* U+2298 '⊘' *)
Definition CHECK : Z := 10003.        (* U+2713 '✓' *)

Definition is_digit (c : Z) : bool := (48 <=? c) && (c <=? 57).
Definition is_alpha (c : Z) : bool :=
  ((65 <=? c) && (c <=? 90)) || ((97 <=? c) && (c <=? 122)).
(** [\w]: ASCII letters, digits and underscore. *)
Definition is_word (c : Z) : bool := is_digit c || is_alpha c || (c =? 95).
(** [\s], and the code units removed by [String.prototype.trim]
    (WhiteSpace and LineTerminator). *)
Definition is_space (c : Z) : bool :=
  ((9 <=? c) && (c <=? 13)) || (c =? 32) || (c =? 160) || (c =? 5760)
  || ((8192 <=? c) && (c <=? 8202)) || (c =? 8232) || (c =? 8233)
  || (c =? 8239) || (c =? 8287) || (c =? 12288) || (c =? 65279).
(** LineTerminator: the code units [.] does not match. *)
Definition is_line_term (c : Z) : bool :=
  (c =? 10) || (c =? 13) || (c =? 8232) || (c =? 8233).

Fixpoint span (p : Z -> bool) (s : jstr) : jstr * jstr :=
  match s with
  | [] => ([], [])
  | c :: t => if p c then let (a, b) := span p t in (c :: a, b) else ([], s)
  end.

Fixpoint drop_while (p : Z -> bool) (s : jstr) : jstr :=
  match s with
  | [] => []
  | c :: t => if p c then drop_while p t else s
  end.

(** [String.prototype.trim]. *)
Definition trim (s : jstr) : jstr :=
  rev (drop_while is_space (rev (drop_while is_space s))).

Fixpoint starts_with (pre s : jstr) : bool :=
  match pre, s with
  | [], _ => true
  | c :: p, d :: t => (c =? d) && starts_with p t
  | _ :: _, [] => false
  end.

Fixpoint jstr_eqb (a b : jstr) : bool :=
  match a, b with
  | [], [] => true
  | c :: a', d :: b' => (c =? d) && jstr_eqb a' b'
  | _, _ => false
  end.

Fixpoint contains (needle s : jstr) : bool :=
  starts_with needle s || match s with [] => false | _ :: t => contains needle t end.

(** [toUpperCase] on the ASCII word characters a [\w+] capture can hold. *)
Definition upper (s : jstr) : jstr :=
  map (fun c => if (97 <=? c) && (c <=? 122) then c - 32 else c) s.

(** [Array.prototype.join(sep)]. *)
Fixpoint join (sep : jstr) (l : list jstr) : jstr :=
  match l with
  | [] => []
  | [x] => x
  | x :: t => x ++ sep ++ join sep t
  end.

(** ** A backtracking matcher for the regular expressions of the code *)

Inductive re : Type :=
| REps                                        (* empty *)
| RClass (p : Z -> bool)                      (* one code unit of a class *)
| RRep (p : Z -> bool) (min : nat) (greedy : bool)
                                              (* [p{min,}] or [p{min,}?] *)
| RSeq (r1 r2 : re)
| RAlt (r1 r2 : re)
| RGroup (n : nat) (r : re)                   (* capture group [n] *)
| REnd.                                       (* [$] without the m flag *)

Definition caps := list (nat * jstr).

Fixpoint first_some {A B : Type} (f : A -> option B) (l : list A) : option B :=
  match l with
  | [] => None
  | x :: t => match f x with Some y => Some y | None => first_some f t end
  end.

(** Repetition counts in the order the matcher tries them. *)
Definition rep_counts (min max : nat) (greedy : bool) : list nat :=
  let l := seq min (S max - min) in if greedy then rev l else l.

Fixpoint bt {R : Type} (r : re) (s : jstr) (cs : caps)
         (k : jstr -> caps -> option R) : option R :=
  match r with
  | REps => k s cs
  | RClass p => match s with c :: t => if p c then k t cs else None | [] => None end
  | RRep p min g =>
      let run := fst (span p s) in
      first_some (fun n => k (skipn n s) cs) (rep_counts min (length run) g)
  | RSeq r1 r2 => bt r1 s cs (fun s1 cs1 => bt r2 s1 cs1 k)
  | RAlt r1 r2 =>
      match bt r1 s cs k with Some x => Some x | None => bt r2 s cs k end
  | RGroup n r1 =>
      bt r1 s cs (fun s1 cs1 => k s1 ((n, firstn (length s - length s1) s) :: cs1))
  | REnd => match s with [] => k s cs | _ => None end
  end.

(** Match anchored at the start of [s]: the rest of the input and the captures. *)
Definition match_at (r : re) (s : jstr) : option (jstr * caps) :=
  bt r s [] (fun rest cs => Some (rest, cs)).

(** [String.prototype.match] without the g flag: leftmost match. *)
Fixpoint search (r : re) (s : jstr) : option (jstr * caps) :=
  match match_at r s with
  | Some m => Some m
  | None => match s with [] => None | _ :: t => search r t end
  end.

Definition cap (n : nat) (cs : caps) : jstr :=
  match find (fun p => Nat.eqb (fst p) n) cs with Some (_, v) => v | None => [] end.

Definition ch (c : Z) : re := RClass (Z.eqb c).
Definition lit (s : jstr) : re := fold_right (fun c r => RSeq (ch c) r) REps s.

(** [String.prototype.replace(regex_with_g_flag, "")]: [skip] counts the
    code units of the current match still to be dropped. *)
Fixpoint replace_go (r : re) (s : jstr) (skip : nat) : jstr :=
  match s with
  | [] => []
  | c :: t =>
      match skip with
      | S n => replace_go r t n
      | O =>
          match match_at r s with
          | Some (rest, _) =>
              match (length s - length rest)%nat with
              | O => c :: replace_go r t O
              | S n => replace_go r t n
              end
          | None => c :: replace_go r t O
          end
      end
  end.

Definition replace_all (r : re) (s : jstr) : jstr := replace_go r s O.

(** ** ANSI stripping (utils.ts, [ANSI_REGEX] and [stripAnsi]) *)

Definition is_csi_param (c : Z) : bool := is_digit c || (c =? 59).

(** [/\x1b\[[0-9;]*[a-zA-Z]|\x1b\].*?\x07/g] *)
Definition ANSI_REGEX : re :=
  RAlt (RSeq (ch ESC) (RSeq (ch 91) (RSeq (RRep is_csi_param 0 true) (RClass is_alpha))))
       (RSeq (ch ESC) (RSeq (ch 93)
              (RSeq (RRep (fun c => negb (is_line_term c)) 0 false) (ch BEL)))).

Definition stripAnsi (text : jstr) : jstr := replace_all ANSI_REGEX text.

(** ** Numbers *)

Definition digit_value (c : Z) : Z := c - 48.

Definition digits_val (d : jstr) : Z :=
  fold_left (fun acc c => acc * 10 + digit_value c) d 0.

(** [parseFloat] on the strings it receives here, the captures of [[\d.]+]:
    the longest prefix that is a decimal literal (digits, an optional '.'
    and digits, at least one digit), [NaN] if there is none. *)
Definition parseFloat (s : jstr) : option Q :=
  let (d1, r) := span is_digit s in
  match r with
  | 46 :: r' =>
      let d2 := fst (span is_digit r') in
      match d1, d2 with
      | [], [] => None
      | _, _ => Some (inject_Z (digits_val d1)
                      + Qmake (digits_val d2) (Z.to_pos (10 ^ Z.of_nat (length d2))))%Q
      end
  | _ => match d1 with [] => None | _ => Some (inject_Z (digits_val d1)) end
  end.

(** Decimal digits of a non-negative integer. *)
Fixpoint digits_rev (fuel : nat) (n : Z) : jstr :=
  match fuel with
  | O => []
  | S f => if n <? 10 then [48 + n] else (48 + n mod 10) :: digits_rev f (n / 10)
  end.

Definition show_Z (n : Z) : jstr := rev (digits_rev (S (Z.to_nat (Z.log2 n))) n).

Definition zeros (n : nat) : jstr := repeat 48 n.

(** [Number.prototype.toFixed(f)] for |x| < 10^21: [n] is the integer whose
    [n / 10^f] is nearest to [x], the larger one on a tie. (From 10^21 on,
    toFixed returns [ToString(x)] in exponent notation, which is not
    modelled; the theorems using [toFixed] keep below that bound.) *)
Definition toFixed_pos (x : Q) (f : nat) : jstr :=
  let n := Qfloor (x * inject_Z (10 ^ Z.of_nat f) + (1 # 2))%Q in
  let m := if n =? 0 then [48] else show_Z n in
  match f with
  | O => m
  | S _ =>
      let m' := if (length m <=? f)%nat then zeros (S f - length m) ++ m else m in
      let k := (length m' - f)%nat in
      firstn k m' ++ [46] ++ skipn k m'
  end.

Definition toFixed (x : Q) (f : nat) : jstr :=
  if Qlt_le_dec x 0 then 45 :: toFixed_pos (- x)%Q f else toFixed_pos x f.

(** Multiplicity of the factor [f] in [q] (for the reduced denominator). *)
Fixpoint factor_count (fuel : nat) (f q : Z) : nat * Z :=
  match fuel with
  | O => (O, q)
  | S fu => if (q mod f =? 0) && (1 <? q)
            then let (c, r) := factor_count fu f (q / f) in (S c, r)
            else (O, q)
  end.

Fixpoint strip_zeros (fuel : nat) (m e : Z) : Z * Z :=
  match fuel with
  | O => (m, e)
  | S fu => if (m mod 10 =? 0) && (0 <? m) then strip_zeros fu (m / 10) (e + 1) else (m, e)
  end.

(** [Number::toString] (radix 10) for positive numbers with a terminating
    decimal expansion, which every double has: digits [D] of length [L] and
    the position [n] of the decimal point, [x = 0.D * 10^n]. *)
Definition num_to_string_pos (x : Q) : jstr :=
  let x' := Qred x in
  let p := Qnum x' in
  let q := Zpos (Qden x') in
  let fuel := S (Z.to_nat (Z.log2 q)) in
  let (a, _) := factor_count fuel 2 q in
  let (b, _) := factor_count fuel 5 q in
  let k := Nat.max a b in
  let m0 := p * 10 ^ Z.of_nat k / q in
  let (m, e) := strip_zeros (S (Z.to_nat (Z.log2 m0))) m0 (- Z.of_nat k) in
  let D := show_Z m in
  let L := Z.of_nat (length D) in
  let n := L + e in
  if (L <=? n) && (n <=? 21) then D ++ zeros (Z.to_nat (n - L))
  else if (0 <? n) && (n <=? 21) then firstn (Z.to_nat n) D ++ [46] ++ skipn (Z.to_nat n) D
  else if (-6 <? n) && (n <=? 0) then [48; 46] ++ zeros (Z.to_nat (- n)) ++ D
  else
    let e' := n - 1 in
    let sgn := if 0 <=? e' then 43 else 45 in
    match D with
    | [d] => [d; 101; sgn] ++ show_Z (Z.abs e')
    | d :: rest => [d; 46] ++ rest ++ [101; sgn] ++ show_Z (Z.abs e')
    | [] => []
    end.

Definition num_to_string (x : Q) : jstr :=
  if Qeq_bool x 0 then [48]
  else if Qlt_le_dec x 0 then 45 :: num_to_string_pos (- x)%Q else num_to_string_pos x.

(** ** Size model *)

(** [SIZE_UNITS] and [BYTES_PER_KB] (utils.ts). *)
Definition SIZE_UNITS : list jstr := [s2j "B"; s2j "KB"; s2j "MB"; s2j "GB"; s2j "TB"].
Definition BYTES_PER_KB : Q := 1024.

Fixpoint formatBytes_loop (fuel : nat) (size : Q) (unitIndex : nat) : Q * nat :=
  match fuel with
  | O => (size, unitIndex)
  | S fu =>
      if Qle_bool BYTES_PER_KB size && (unitIndex <? length SIZE_UNITS - 1)%nat
      then formatBytes_loop fu (size / BYTES_PER_KB)%Q (S unitIndex)
      else (size, unitIndex)
  end.

(** [formatBytes] (utils.ts). The loop runs at most [SIZE_UNITS.length - 1]
    times, so [length SIZE_UNITS] is enough fuel. *)
Definition formatBytes (bytes : Q) : jstr :=
  if Qle_bool bytes 0 then s2j "0 B"
  else
    let (size, unitIndex) := formatBytes_loop (length SIZE_UNITS) bytes O in
    toFixed size (if Nat.eqb unitIndex 0 then 0 else 1)
      ++ s2j " " ++ nth unitIndex SIZE_UNITS [].

Definition KiB : Q := 1024.
Definition MiB : Q := (1024 * 1024)%Q.
Definition GiB : Q := (1024 * 1024 * 1024)%Q.
Definition TiB : Q := (1024 * 1024 * 1024 * 1024)%Q.

(** [formatBytesShort] (clean.tsx). *)
Definition formatBytesShort (bytes : Q) : jstr :=
  if Qle_bool GiB bytes then toFixed (bytes / GiB)%Q 1 ++ s2j " GB"
  else if Qle_bool MiB bytes then toFixed (bytes / MiB)%Q 1 ++ s2j " MB"
  else if Qle_bool KiB bytes then toFixed (bytes / KiB)%Q 0 ++ s2j " KB"
  else num_to_string bytes ++ s2j " B".

(** [/([\d.]+)\s*(\w+)/] *)
Definition is_num_char (c : Z) : bool := is_digit c || (c =? 46).
Definition SIZE_REGEX : re :=
  RSeq (RGroup 1 (RRep is_num_char 1 true))
       (RSeq (RRep is_space 0 true) (RGroup 2 (RRep is_word 1 true))).

Definition multiplier (unit : jstr) : Q :=
  if jstr_eqb unit (s2j "B") then 1
  else if jstr_eqb unit (s2j "KB") then KiB
  else if jstr_eqb unit (s2j "MB") then MiB
  else if jstr_eqb unit (s2j "GB") then GiB
  else if jstr_eqb unit (s2j "TB") then TiB
  else 1.

(** [parseSizeToBytes] (clean.tsx); [None] is [NaN]. *)
Definition parseSizeToBytes (sizeStr : jstr) : option Q :=
  match sizeStr with
  | [] => Some 0%Q
  | _ =>
      match search SIZE_REGEX sizeStr with
      | None => Some 0%Q
      | Some (_, cs) =>
          match parseFloat (cap 1 cs) with
          | Some value => Some (value * multiplier (upper (cap 2 cs)))%Q
          | None => None
          end
      end
  end.

(** ** The streaming clean parser of [runDryRun] (clean.tsx) *)

Definition rseq (rs : list re) : re := fold_right RSeq REps rs.
Definition ws_star : re := RRep is_space 0 true.
Definition any_char (c : Z) : bool := negb (is_line_term c).

(** [/Potential space:\s*([\d.]+\s*\w+)\s*\|\s*Items:\s*(\d+)\s*\|\s*Categories:\s*(\d+)/] *)
Definition SUMMARY_REGEX : re :=
  rseq [lit (s2j "Potential space:"); ws_star;
        RGroup 1 (rseq [RRep is_num_char 1 true; ws_star; RRep is_word 1 true]);
        ws_star; ch 124; ws_star; lit (s2j "Items:"); ws_star;
        RGroup 2 (RRep is_digit 1 true); ws_star; ch 124; ws_star;
        lit (s2j "Categories:"); ws_star; RGroup 3 (RRep is_digit 1 true)].

(** [/^➤\s*/] *)
Definition HEADER_PREFIX : re := rseq [ch ARROW_HEAD; ws_star].

(** [/^→\s*(.+?),\s*([\d.]+\s*\w+)\s*dry$/] *)
Definition DRY_REGEX : re :=
  rseq [ch ARROW_RIGHT; ws_star; RGroup 1 (RRep any_char 1 false); ch 44; ws_star;
        RGroup 2 (rseq [RRep is_num_char 1 true; ws_star; RRep is_word 1 true]);
        ws_star; lit (s2j "dry"); REnd].

(** [/^→\s*(.+?)\s*·\s*would\s+(.+)/] *)
Definition WOULD_REGEX : re :=
  rseq [ch ARROW_RIGHT; ws_star; RGroup 1 (RRep any_char 1 false); ws_star; ch MIDDOT;
        ws_star; lit (s2j "would"); RRep is_space 1 true; RGroup 2 (RRep any_char 1 true)].

(** [/^→\s*(.+)/] *)
Definition SIMPLE_REGEX : re := rseq [ch ARROW_RIGHT; ws_star; RGroup 1 (RRep any_char 1 true)].

(** [/^•\s*/] *)
Definition PROGRESS_PREFIX : re := rseq [ch BULLET; ws_star].

(** [s.replace(/^.../, "")] with an anchored pattern. *)
Definition replace_prefix (r : re) (s : jstr) : jstr :=
  match match_at r s with Some (rest, _) => rest | None => s end.

Record CleanItem := { description : jstr; size : jstr }.
Record CleanCategory := { name : jstr; items : list CleanItem; totalSize : jstr }.
Record CleanSummary := { sumTotalSize : jstr; sumTotalItems : jstr; sumTotalCategories : jstr }.

(** [finalizeCategorySize]: [.filter((s) => s > 0)] drops [NaN] and non-positive
    sizes; the total is only written when some size is left. *)
Definition positive_sizes (its : list CleanItem) : list Q :=
  fold_right (fun it acc =>
                match parseSizeToBytes (size it) with
                | Some q => if Qlt_le_dec 0 q then q :: acc else acc
                | None => acc
                end) [] its.

Definition finalizeCategorySize (c : CleanCategory) : CleanCategory :=
  match positive_sizes (items c) with
  | [] => c
  | sizes => {| name := name c; items := items c;
                totalSize := formatBytesShort (fold_left Qplus sizes 0%Q) |}
  end.

Definition push_item (c : CleanCategory) (it : CleanItem) : CleanCategory :=
  {| name := name c; items := items c ++ [it]; totalSize := totalSize c |}.

(** The if-chain of the [onLine] callback, branch by branch: each branch of
    the source ends in [return], so a line takes the first branch whose
    test succeeds. *)
Inductive line_kind :=
| LEmpty
| LSummary (s : CleanSummary)
| LHeader (name : jstr)
| LItem (it : CleanItem) (dry : bool)
| LProgress (status : jstr)
| LOther.

Definition classify_line (line : jstr) : line_kind :=
  let stripped := trim (stripAnsi line) in
  match stripped with
  | [] => LEmpty
  | _ =>
    match search SUMMARY_REGEX stripped with
    | Some (_, cs) => LSummary {| sumTotalSize := cap 1 cs; sumTotalItems := cap 2 cs;
                                  sumTotalCategories := cap 3 cs |}
    | None =>
      if starts_with [ARROW_HEAD] stripped
      then LHeader (trim (replace_prefix HEADER_PREFIX stripped))
      else
        match match_at DRY_REGEX stripped with
        | Some (_, cs) => LItem {| description := cap 1 cs; size := cap 2 cs |} true
        | None =>
          match match_at WOULD_REGEX stripped with
          | Some (_, cs) =>
              LItem {| description := cap 1 cs ++ s2j " (would " ++ cap 2 cs ++ s2j ")";
                       size := [] |} false
          | None =>
            match match_at SIMPLE_REGEX stripped with
            | Some (_, cs) =>
                if negb (starts_with (s2j "/") (cap 1 cs))
                then LItem {| description := cap 1 cs; size := [] |} false
                else if starts_with [BULLET] stripped
                     then LProgress (replace_prefix PROGRESS_PREFIX stripped) else LOther
            | None =>
                if starts_with [BULLET] stripped
                then LProgress (replace_prefix PROGRESS_PREFIX stripped) else LOther
            end
          end
        end
    end
  end.

(** "正在掃描" *)
Definition SCANNING : jstr := [27491; 22312; 25475; 25551].

(** React state of [CleanCommand] together with its refs. The current
    category object is shared between [currentCategoryRef] and the
    [categories] state; every in-place mutation of it is followed by a
    [setCategories] of the current value, so after each callback the
    snapshot held here equals the aliased view. *)
Record clean_state := {
  categories : list CleanCategory;
  summary : option CleanSummary;
  isLoading : bool;
  error : option jstr;
  scanStatus : jstr;
  categoriesRef : list CleanCategory;
  currentCategoryRef : option CleanCategory;
  currentScanId : nat }.

Definition initial_state : clean_state :=
  {| categories := []; summary := None; isLoading := true; error := None; scanStatus := [];
     categoriesRef := []; currentCategoryRef := None; currentScanId := 0 |}.

Definition set_categories (cs : list CleanCategory) (s : clean_state) : clean_state :=
  {| categories := cs; summary := summary s; isLoading := isLoading s; error := error s;
     scanStatus := scanStatus s; categoriesRef := categoriesRef s;
     currentCategoryRef := currentCategoryRef s; currentScanId := currentScanId s |}.

Definition mk_state (cats : list CleanCategory) (sm : option CleanSummary) (ld : bool)
    (err : option jstr) (status : jstr) (refs : list CleanCategory)
    (cur : option CleanCategory) (id : nat) : clean_state :=
  {| categories := cats; summary := sm; isLoading := ld; error := err; scanStatus := status;
     categoriesRef := refs; currentCategoryRef := cur; currentScanId := id |}.

(** The synchronous prefix of [runDryRun]: [++currentScanIdRef.current] and the resets. *)
Definition start_state (scanId : nat) : clean_state :=
  mk_state [] None true None (SCANNING ++ s2j "...") [] None scanId.

Definition commit_current (s : clean_state) : clean_state :=
  match currentCategoryRef s with
  | Some c =>
      let c' := finalizeCategorySize c in
      let refs := categoriesRef s ++ [c'] in
      mk_state refs (summary s) (isLoading s) (error s) (scanStatus s) refs (Some c')
               (currentScanId s)
  | None => s
  end.

(** The [onLine] callback of the scan [scanId]. *)
Definition on_line (scanId : nat) (line : jstr) (s : clean_state) : clean_state :=
  if negb (Nat.eqb (currentScanId s) scanId) then s
  else
  match classify_line line with
  | LEmpty | LOther => s
  | LSummary sm =>
      mk_state (categories s) (Some sm) (isLoading s) (error s) (scanStatus s)
               (categoriesRef s) (currentCategoryRef s) (currentScanId s)
  | LHeader n =>
      let s1 := commit_current s in
      mk_state (categories s1) (summary s1) (isLoading s1) (error s1)
               (SCANNING ++ s2j " " ++ n ++ s2j "...")
               (categoriesRef s1) (Some {| name := n; items := []; totalSize := [] |})
               (currentScanId s1)
  | LItem it dry =>
      match currentCategoryRef s with
      | None => s
      | Some c =>
          let c1 := push_item c it in
          let c2 := if dry then finalizeCategorySize c1 else c1 in
          mk_state (categoriesRef s ++ [c2]) (summary s) (isLoading s) (error s)
                   (scanStatus s) (categoriesRef s) (Some c2) (currentScanId s)
      end
  | LProgress st =>
      match currentCategoryRef s with
      | None => s
      | Some _ =>
          mk_state (categories s) (summary s) (isLoading s) (error s) st
                   (categoriesRef s) (currentCategoryRef s) (currentScanId s)
      end
  end.

(** The [finally] block. *)
Definition finally_block (scanId : nat) (s : clean_state) : clean_state :=
  if Nat.eqb (currentScanId s) scanId
  then mk_state (categories s) (summary s) false (error s) [] (categoriesRef s)
                (currentCategoryRef s) (currentScanId s)
  else s.

(** The continuation after [await spawnMoStreaming(...)] resolved: the guard,
    the final commit, then [finally]. (The [Some c'] kept in the ref is the
    object just pushed; lines of the same scan arriving after this point,
    possible only after the 5-minute timeout, would mutate that shared
    object, which this value model does not track.) *)
Definition on_resolved (scanId : nat) (s : clean_state) : clean_state :=
  if negb (Nat.eqb (currentScanId s) scanId) then finally_block scanId s
  else finally_block scanId (commit_current s).

(** The [catch] block up to [await showToast(...)]. *)
Definition on_rejected (scanId : nat) (message : jstr) (s : clean_state) : clean_state :=
  if negb (Nat.eqb (currentScanId s) scanId) then finally_block scanId s
  else mk_state (categories s) (summary s) (isLoading s) (Some message) (scanStatus s)
                (categoriesRef s) (currentCategoryRef s) (currentScanId s).

(** Each event is one uninterrupted run of JavaScript between suspension points. *)
Inductive scan_event :=
| ScanStart
| ScanLine (scanId : nat) (line : jstr)
| ScanResolved (scanId : nat)
| ScanRejected (scanId : nat) (message : jstr)
| ScanToastShown (scanId : nat).

Definition event_token (e : scan_event) : option nat :=
  match e with
  | ScanStart => None
  | ScanLine id _ | ScanResolved id | ScanRejected id _ | ScanToastShown id => Some id
  end.

Definition scan_step (s : clean_state) (e : scan_event) : clean_state :=
  match e with
  | ScanStart => start_state (S (currentScanId s))
  | ScanLine id l => on_line id l s
  | ScanResolved id => on_resolved id s
  | ScanRejected id m => on_rejected id m s
  | ScanToastShown id => finally_block id s
  end.

Definition run_events (es : list scan_event) (s : clean_state) : clean_state :=
  fold_left scan_step es s.

(** One scan fed with [lines] until its stream resolves. *)
Definition parse_clean (lines : list jstr) : list CleanCategory :=
  categories (run_events (ScanStart :: map (ScanLine 1) lines ++ [ScanResolved 1])
                         initial_state).

(** Specification side of the clean parser (from the spec's words): a
    section-header line is, after ANSI stripping and trimming, a line starting
    with '➤' that is not the summary trailer (the trailer test comes first);
    each header opens one section holding the lines up to the next header. *)
Definition header_name (line : jstr) : option jstr :=
  let st := trim (stripAnsi line) in
  match st with
  | [] => None
  | _ => match search SUMMARY_REGEX st with
         | Some _ => None
         | None => if starts_with [ARROW_HEAD] st
                   then Some (trim (replace_prefix HEADER_PREFIX st)) else None
         end
  end.

Definition item_line (line : jstr) : option CleanItem :=
  match classify_line line with LItem it _ => Some it | _ => None end.

(** Lines before the first header, and the sections. *)
Fixpoint split_sections (lines : list jstr) : list jstr * list (jstr * list jstr) :=
  match lines with
  | [] => ([], [])
  | l :: t =>
      let (pre, secs) := split_sections t in
      match header_name l with
      | Some n => ([], (n, pre) :: secs)
      | None => (l :: pre, secs)
      end
  end.

Definition sections (lines : list jstr) : list (jstr * list jstr) := snd (split_sections lines).

Definition count_headers (lines : list jstr) : nat :=
  length (filter (fun l => match header_name l with Some _ => true | None => false end) lines).

Definition total_of (its : list CleanItem) : jstr :=
  match positive_sizes its with
  | [] => []
  | sizes => formatBytesShort (fold_left Qplus sizes 0%Q)
  end.

Definition category_of_section (sec : jstr * list jstr) : CleanCategory :=
  let its := flat_map (fun l => match item_line l with Some it => [it] | None => [] end)
                      (snd sec) in
  {| name := fst sec; items := its; totalSize := total_of its |}.

(** ** The buffered parser [parseDryRunOutput] (utils.ts) *)

(** [String.prototype.split(sep)] with a one-code-unit separator. *)
Fixpoint split_go (sep : Z) (acc : jstr) (s : jstr) : list jstr :=
  match s with
  | [] => [acc]
  | c :: t => if c =? sep then acc :: split_go sep [] t else split_go sep (acc ++ [c]) t
  end.

Definition split_on (sep : Z) (s : jstr) : list jstr := split_go sep [] s.

Record UCategory := { uname : jstr; usize : jstr; uisDryRun : bool; uitems : list jstr }.

Definition is_u_header_glyph (c : Z) : bool := (c =? TRIANGLE) || (c =? ARROW_RIGHT).

(** [/^[▶→]\s*/] *)
Definition U_HEADER_PREFIX : re := rseq [RClass is_u_header_glyph; ws_star].

(** [/^[⊘]\s*(.+?),\s*([\d.]+\s*\w+)\s*dry$/] *)
Definition U_DRY_REGEX : re :=
  rseq [ch CIRCLED_SLASH; ws_star; RGroup 1 (RRep any_char 1 false); ch 44; ws_star;
        RGroup 2 (rseq [RRep is_num_char 1 true; ws_star; RRep is_word 1 true]);
        ws_star; lit (s2j "dry"); REnd].

(** [/^[✓]\s*(.+?),\s*([\d.]+\s*\w+)$/] *)
Definition U_SUCCESS_REGEX : re :=
  rseq [ch CHECK; ws_star; RGroup 1 (RRep any_char 1 false); ch 44; ws_star;
        RGroup 2 (rseq [RRep is_num_char 1 true; ws_star; RRep is_word 1 true]); REnd].

Definition u_set (c : UCategory) (its : list jstr) (sz : jstr) : UCategory :=
  {| uname := uname c; usize := sz; uisDryRun := uisDryRun c; uitems := its |}.

(** One iteration of the [for] loop: (categories, currentCategory). *)
Definition u_step (st : list UCategory * option UCategory) (line : jstr)
    : list UCategory * option UCategory :=
  let (cats, cur) := st in
  let stripped := trim (stripAnsi line) in
  match stripped with
  | [] => st
  | g :: _ =>
    if is_u_header_glyph g then
      (cats ++ match cur with Some c => [c] | None => [] end,
       Some {| uname := trim (replace_prefix U_HEADER_PREFIX stripped); usize := [];
               uisDryRun := true; uitems := [] |})
    else
    match cur with
    | None => st
    | Some c =>
      match match_at U_DRY_REGEX stripped with
      | Some (_, cs) => (cats, Some (u_set c (uitems c ++ [cap 1 cs]) (cap 2 cs)))
      | None =>
        match match_at U_SUCCESS_REGEX stripped with
        | Some (_, cs) => (cats, Some (u_set c (uitems c ++ [cap 1 cs]) (cap 2 cs)))
        | None =>
          if contains (s2j "Nothing to clean") stripped
          then (cats, Some (u_set c (uitems c) (s2j "0 B"))) else st
        end
      end
    end
  end.

Definition parseDryRunOutput (output : jstr) : list UCategory :=
  let (cats, cur) := fold_left u_step (split_on NL output) ([], None) in
  filter (fun c => match uname c with [] => false | _ => true end)
         (cats ++ match cur with Some c => [c] | None => [] end).

(** Header lines in the sense of [parseDryRunOutput], with their names. *)
Definition u_header_name (line : jstr) : option jstr :=
  match trim (stripAnsi line) with
  | (g :: t) as stripped =>
      if is_u_header_glyph g then Some (trim (replace_prefix U_HEADER_PREFIX stripped))
      else None
  | [] => None
  end.

(** ** The streaming reader of [spawnMoStreaming] (utils.ts) *)

(** [Array.prototype.pop]: the last element and the remaining array. *)
Definition pop (l : list jstr) : option jstr * list jstr :=
  match rev l with
  | x :: r => (Some x, rev r)
  | [] => (None, [])
  end.

Record stream_state := { buffer : jstr; delivered : list jstr; resolved : bool }.

Definition stream_init : stream_state := {| buffer := []; delivered := []; resolved := false |}.

(** Chunks are the decoded strings [chunk.toString()]. *)
Inductive proc_event := PData (chunk : jstr) | PClose | PTimeout.

Definition stream_step (st : stream_state) (e : proc_event) : stream_state :=
  match e with
  | PData chunk =>
      let lines := split_on NL (buffer st ++ chunk) in
      let (last, rest) := pop lines in
      {| buffer := match last with Some b => b | None => [] end;
         delivered := delivered st ++ rest; resolved := resolved st |}
  | PClose =>
      {| buffer := buffer st;
         delivered := delivered st ++ match trim (buffer st) with
                                      | [] => [] | _ => [buffer st] end;
         resolved := true |}
  | PTimeout => {| buffer := buffer st; delivered := delivered st; resolved := true |}
  end.

Definition run_stream (es : list proc_event) : stream_state := fold_left stream_step es stream_init.

(** ** Buffered invocation [execMo] (utils.ts) *)

(** What [execAsync] settles with: the resolved [stdout], or the fields of
    the rejected error ([undefined] is [None]) and [String(err)]. *)
Inductive exec_outcome :=
| ExecResolved (stdout : jstr)
| ExecRejected (stdout stderr message : option jstr) (str : jstr).

Definition truthy (o : option jstr) : option jstr :=
  match o with Some ((_ :: _) as s) => Some s | _ => None end.

(** The result once [getMoPath] succeeded: [inl] the returned stdout, [inr]
    the message of the thrown [Error]. *)
Definition execMo_failure (args : list jstr) (stderr message : option jstr) (str : jstr)
    : jstr :=
  s2j "mo " ++ join (s2j " ") args ++ s2j " failed: "
  ++ match truthy stderr with
     | Some d => d
     | None => match truthy message with Some d => d | None => str end
     end.

Definition execMo_after_path (args : list jstr) (o : exec_outcome) : jstr + jstr :=
  match o with
  | ExecResolved stdout => inl stdout
  | ExecRejected stdout stderr message str =>
      match truthy stdout with
      | Some out => if (0 <? length (trim out))%nat then inl out
                    else inr (execMo_failure args stderr message str)
      | None => inr (execMo_failure args stderr message str)
      end
  end.

(** ** Engine path resolution [getMoPath] (utils.ts) *)

(** The environment the resolution observes: [HOME] as it renders in a
    template literal, what [execFile("which", ["mo"])] settles with ([None]
    when it rejects) and [existsSync]. *)
Record engine_env := {
  env_home : jstr;
  which_stdout : option jstr;
  path_exists : jstr -> bool }.

Definition MO_SEARCH_PATHS (env : engine_env) : list jstr :=
  [s2j "/usr/local/bin/mo"; s2j "/opt/homebrew/bin/mo";
   env_home env ++ s2j "/.local/bin/mo"; s2j "/opt/local/bin/mo"].

Definition NOT_INSTALLED : jstr :=
  s2j "Mole (mo) " ++ [26410; 23433; 35037; 12290; 35531; 20808; 22519; 34892]
  ++ s2j " `brew install mole` " ++ [25110; 21443; 32771] ++ s2j " https://github.com/tw93/mole".

(** The observable lookups, in order. *)
Inductive probe := PWhich | PExists (p : jstr).

(** The [for] loop over [MO_SEARCH_PATHS]. *)
Fixpoint first_existing (env : engine_env) (cands : list jstr) : option jstr * list probe :=
  match cands with
  | [] => (None, [])
  | c :: t =>
      if path_exists env c then (Some c, [PExists c])
      else let (r, ps) := first_existing env t in (r, PExists c :: ps)
  end.

(** [getMoPath] with the module-level [cachedMoPath]: the result ([inl]
    path, [inr] error message), the new cache and the lookups made. *)
Definition getMoPath (env : engine_env) (cachedMoPath : option jstr)
    : (jstr + jstr) * option jstr * list probe :=
  match truthy cachedMoPath with
  | Some p => (inl p, cachedMoPath, [])
  | None =>
    let which_try :=
      match which_stdout env with
      | None => (None, [PWhich])
      | Some out =>
          let resolved := trim out in
          match resolved with
          | [] => (None, [PWhich])
          | _ => if path_exists env resolved then (Some resolved, [PWhich; PExists resolved])
                 else (None, [PWhich; PExists resolved])
          end
      end in
    match which_try with
    | (Some r, ps) => (inl r, Some r, ps)
    | (None, ps) =>
        match first_existing env (MO_SEARCH_PATHS env) with
        | (Some c, ps') => (inl c, Some c, ps ++ ps')
        | (None, ps') => (inr NOT_INSTALLED, cachedMoPath, ps ++ ps')
        end
    end
  end.

(** [execMo]: [getMoPath] first (its error propagates), then the command. *)
Definition execMo (env : engine_env) (cache : option jstr) (args : list jstr)
    (o : exec_outcome) : (jstr + jstr) * option jstr :=
  match getMoPath env cache with
  | (inl _, cache', _) => (execMo_after_path args o, cache')
  | (inr e, cache', _) => (inr e, cache')
  end.

(** ** The purge target walker [findPurgeTargetsNative] (purge.tsx) *)

(** A directory tree: a directory carries whether [readdirSync] succeeds on
    it; every other entry kind ([isDirectory()] false) is a [FOther]. Paths
    are lists of components ([path.join(dir, name)] appends [name]). *)
#[warnings="-register-all"]
Inductive fs_node :=
| FDir (name : jstr) (readable : bool) (children : list fs_node)
| FOther (name : jstr).

Record PurgeItem := { item_name : jstr; item_path : list jstr; project : jstr;
                      isLoadingSize : bool }.

Definition skipped (targets : jstr -> bool) (name : jstr) : bool :=
  (starts_with (s2j ".") name && negb (targets name))
  || jstr_eqb name (s2j "Library") || jstr_eqb name (s2j "System").

Definition basename (dir : list jstr) : jstr := last dir [].

Section Walker.
Variable targets : jstr -> bool.
Variable maxDepth : nat.

(** [findPurgeTargetsNative(dir, currentDepth, maxDepth, targets, results)]
    on the directory [node] at [dir]: the items pushed to [results], in
    order, and the directories passed to [readdirSync], in order. *)
Fixpoint walk (dir : list jstr) (node : fs_node) (currentDepth : nat) {struct node}
    : list PurgeItem * list (list jstr) :=
  match node with
  | FOther _ => ([], [])
  | FDir _ readable ents =>
    if (maxDepth <? currentDepth)%nat then ([], [])
    else if negb readable then ([], [dir])
    else
      let fix loop (es : list fs_node) : list PurgeItem * list (list jstr) :=
        match es with
        | [] => ([], [])
        | FOther _ :: es' => loop es'
        | (FDir name _ _ as ent) :: es' =>
            if skipped targets name then loop es'
            else if targets name then
              let (r, v) := loop es' in
              ({| item_name := name; item_path := dir ++ [name]; project := basename dir;
                  isLoadingSize := true |} :: r, v)
            else
              let (r1, v1) := walk (dir ++ [name]) ent (S currentDepth) in
              let (r2, v2) := loop es' in
              (r1 ++ r2, v1 ++ v2)
        end in
      let (r, v) := loop ents in (r, dir :: v)
  end.
End Walker.

(** [targetNames] of [discoverPurgeTargets]. *)
Definition targetNames : list jstr :=
  [s2j "node_modules"; s2j "target"; s2j "build"; s2j "dist"; s2j "vendor";
   s2j "DerivedData"; s2j ".next"; s2j ".nuxt"; s2j ".vercel"; s2j ".svelte-kit";
   s2j ".astro"].

Definition is_target (name : jstr) : bool := existsb (jstr_eqb name) targetNames.

(** The call [findPurgeTargetsNative(p, 1, 4, targetNames, items)]. *)
Definition findPurgeTargets (root : list jstr) (node : fs_node) :=
  walk is_target 4 root node 1.

(** ** Auxiliary definitions of the proofs *)

Definition items_of (lines : list jstr) : list CleanItem :=
  flat_map (fun l => match item_line l with Some it => [it] | None => [] end) lines.

(** A category whose items have no positive size still has an empty total. *)
Definition total_inv (c : CleanCategory) : Prop :=
  positive_sizes (items c) = [] -> totalSize c = [].

Definition extend (c : CleanCategory) (its : list CleanItem) : CleanCategory :=
  {| name := name c; items := items c ++ its; totalSize := total_of (items c ++ its) |}.

(** The invariant of one scan running alone under token [1]. *)
Definition scan_inv (s : clean_state) : Prop :=
  currentScanId s = 1%nat
  /\ (forall c, currentCategoryRef s = Some c -> total_inv c)
  /\ (currentCategoryRef s = None -> categoriesRef s = [] /\ categories s = []).

(** Categories that are committed, or would be by the end-of-stream commit. *)
Definition committed (s : clean_state) : list CleanCategory :=
  categoriesRef s ++ match currentCategoryRef s with
                     | Some c => [finalizeCategorySize c] | None => [] end.

Definition committed_spec (s : clean_state) (lines : list jstr) : list CleanCategory :=
  let (pre, secs) := split_sections lines in
  categoriesRef s
  ++ match currentCategoryRef s with Some c => [extend c (items_of pre)] | None => [] end
  ++ map category_of_section secs.

Definition of_scan (n : nat) (e : scan_event) : bool :=
  match event_token e with Some id => Nat.eqb id n | None => false end.

Definition named (c : UCategory) : nat := match uname c with [] => 0%nat | _ => 1%nat end.

Definition u_measure (st : list UCategory * option UCategory) : nat :=
  (length (filter (fun c => match uname c with [] => false | _ => true end) (fst st))
  + match snd st with Some c => named c | None => 0 end)%nat.

Definition named_header (line : jstr) : nat :=
  match u_header_name line with Some (_ :: _) => 1%nat | _ => 0%nat end.

(** [1024^k]: the byte count of one unit of [SIZE_UNITS] at index [k]. *)
Fixpoint pow1024 (k : nat) : Q :=
  match k with O => 1%Q | S k' => (1024 * pow1024 k')%Q end.

(** The rendering [formatBytesShort] gives to [v] units of index [k]. *)
Definition short_by_unit (v : Q) (k : nat) : jstr :=
  match k with
  | O => num_to_string v ++ s2j " B"
  | 1%nat => toFixed v 0 ++ s2j " KB"
  | 2%nat => toFixed v 1 ++ s2j " MB"
  | 3%nat => toFixed v 1 ++ s2j " GB"
  | _ => toFixed (v * 1024)%Q 1 ++ s2j " GB"
  end.

(** Specification side of [parseSizeToBytes] (from the spec's words): the
    unit table B=1, KB=1024, ..., TB=1024^4, matched case-insensitively, and
    the value of a decimal literal with integer digits [d1] and fraction
    digits [d2]. *)
Fixpoint index_of (w : jstr) (l : list jstr) : option nat :=
  match l with
  | [] => None
  | x :: t => if jstr_eqb w x then Some O
              else match index_of w t with Some k => Some (S k) | None => None end
  end.

Definition unit_factor (u : jstr) : Q :=
  match index_of (upper u) SIZE_UNITS with Some k => pow1024 k | None => 1%Q end.

Definition frac_digits (frac : option jstr) : jstr :=
  match frac with Some d2 => d2 | None => [] end.

Definition num_token (d1 : jstr) (frac : option jstr) : jstr :=
  d1 ++ match frac with Some d2 => 46 :: d2 | None => [] end.

Definition decimal_value (d1 d2 : jstr) : Q :=
  Qmake (digits_val (d1 ++ d2)) (Z.to_pos (10 ^ Z.of_nat (length d2))).

(** The rest delivered on close: only a buffer that is non-empty after
    [trim]. *)
Definition close_flush (b : jstr) : list jstr := match trim b with [] => [] | _ => [b] end.

(** Specification side of [execMo]'s failure: the first of [stderr] and
    [message] that is a non-empty string, else [String(err)]. *)
Definition first_nonempty (a b : option jstr) (dflt : jstr) : jstr :=
  match a with
  | Some ((_ :: _) as d) => d
  | _ => match b with Some ((_ :: _) as d) => d | _ => dflt end
  end.

(** Specification side of [getMoPath]: the path the [which] lookup yields
    (its trimmed, non-empty output when that file exists). *)
Definition which_result (env : engine_env) : option jstr :=
  match which_stdout env with
  | Some out =>
      match trim out with
      | [] => None
      | r => if path_exists env r then Some r else None
      end
  | None => None
  end.

(** Specification side of [stripAnsi]: a text as a sequence of plain runs,
    CSI sequences [ESC [ params letter] and OSC sequences [ESC ] body BEL]. *)
Inductive ansi_seg :=
| Plain (t : jstr)
| Csi (params : jstr) (final : Z)
| Osc (body : jstr).

Definition render_seg (g : ansi_seg) : jstr :=
  match g with
  | Plain t => t
  | Csi ps f => ESC :: 91 :: ps ++ [f]
  | Osc b => ESC :: 93 :: b ++ [BEL]
  end.

Definition plain_text (g : ansi_seg) : jstr :=
  match g with Plain t => t | _ => [] end.

Definition seg_ok (g : ansi_seg) : bool :=
  match g with
  | Plain t => forallb (fun c => negb (c =? ESC)) t
  | Csi ps f => forallb is_csi_param ps && is_alpha f
  | Osc b => forallb (fun c => negb (c =? BEL) && negb (is_line_term c)) b
  end.

(** The loop of [walk] over the entries of a readable directory, named. *)
Definition walk_loop (targets : jstr -> bool) (maxDepth : nat) (dir : list jstr)
    (currentDepth : nat) : list fs_node -> list PurgeItem * list (list jstr) :=
  fix loop (es : list fs_node) : list PurgeItem * list (list jstr) :=
    match es with
    | [] => ([], [])
    | FOther _ :: es' => loop es'
    | (FDir name _ _ as ent) :: es' =>
        if skipped targets name then loop es'
        else if targets name then
          let (r, v) := loop es' in
          ({| item_name := name; item_path := dir ++ [name]; project := basename dir;
              isLoadingSize := true |} :: r, v)
        else
          let (r1, v1) := walk targets maxDepth (dir ++ [name]) ent (S currentDepth) in
          let (r2, v2) := loop es' in
          (r1 ++ r2, v1 ++ v2)
    end.

(** Induction on trees, with the hypothesis on every child. *)
Fixpoint fs_node_ind' (P : fs_node -> Prop)
    (Hdir : forall n rd ch, Forall P ch -> P (FDir n rd ch))
    (Hother : forall n, P (FOther n)) (t : fs_node) : P t :=
  match t with
  | FDir n rd ch =>
      Hdir n rd ch
        ((fix go (l : list fs_node) : Forall P l :=
            match l with
            | [] => Forall_nil P
            | x :: l' => Forall_cons x (fs_node_ind' P Hdir Hother x) (go l')
            end) ch)
  | FOther n => Hother n
  end.

(** Paths below [dir] that cross no target directory. *)
Definition clear_below (targets : jstr -> bool) (dir v : list jstr) : Prop :=
  exists mid, v = dir ++ mid /\ forall x, In x mid -> targets x = false.

(** Paths of a target directory reached below [dir] through no other. *)
Definition target_below (targets : jstr -> bool) (dir p : list jstr) : Prop :=
  exists mid name, p = dir ++ mid ++ [name] /\ targets name = true
                   /\ forall x, In x mid -> targets x = false.

(** The tree of the example: [project/node_modules/sub/node_modules] under
    the home directory [/Users/u]. *)
Definition nested_tree : fs_node :=
  FDir (s2j "u") true
    [FDir (s2j "project") true
       [FDir (s2j "node_modules") true
          [FDir (s2j "sub") true [FDir (s2j "node_modules") true []]]]].

(** ** Further size helpers and the directory scan (utils.ts, clean.tsx) *)

(** [formatBytesFromKB] (utils.ts). *)
Definition formatBytesFromKB (kb : Q) : jstr := formatBytes (kb * BYTES_PER_KB)%Q.

(** The [Color] values [getSizeColor] returns. *)
Inductive Color := Red | Orange | Yellow | Green | SecondaryText.

(** [getSizeColor] (clean.tsx). A [NaN] size fails every comparison and falls
    through to [SecondaryText]. The double literals [0.5] and [0.1] are
    written as [1/2] and [1/10]: no double lies between [1/10] and the double
    nearest to it, so [gb >= 0.1] holds on the same doubles. *)
Definition getSizeColor (size : jstr) : Color :=
  match parseSizeToBytes size with
  | None => SecondaryText
  | Some bytes =>
      let gb := (bytes / GiB)%Q in
      if Qle_bool 2 gb then Red
      else if Qle_bool (1 # 2) gb then Orange
      else if Qle_bool (1 # 10) gb then Yellow
      else if negb (Qle_bool bytes 0) then Green
      else SecondaryText
  end.

(** [Array.prototype.sort(comparefn)], which is stable: each element goes
    after the ones already placed unless [comparefn] puts it strictly
    before them. For a consistent comparator a stable sort has only one
    possible result, so insertion sort computes it. *)
Section Sort.
Context {A : Type}.
Variable comparefn : A -> A -> Q.

Fixpoint sort_insert (x : A) (l : list A) : list A :=
  match l with
  | [] => [x]
  | y :: t => if Qlt_le_dec (comparefn x y) 0 then x :: y :: t else y :: sort_insert x t
  end.

Definition sort_by (l : list A) : list A := fold_left (fun acc x => sort_insert x acc) l [].
End Sort.

(** [parseInt(s, 10)]: leading white space, an optional sign, then the
    longest run of decimal digits; [NaN] ([None]) when there is no digit. *)
Definition parseInt10 (s : jstr) : option Z :=
  let s1 := drop_while is_space s in
  let (sign, s2) := match s1 with
                    | c :: t => if c =? 45 then (-1, t) else if c =? 43 then (1, t) else (1, s1)
                    | [] => (1, s1)
                    end in
  match fst (span is_digit s2) with
  | [] => None
  | d => Some (sign * digits_val d)
  end.

(** The size from [du -sk]: [parseInt(stdout.split("\t")[0], 10)] kilobytes,
    [0] for [NaN]; [None] is a failed [du]. *)
Definition du_bytes (du : option jstr) : Q :=
  match du with
  | None => 0%Q
  | Some stdout =>
      match parseInt10 (hd [] (split_on 9 stdout)) with
      | None => 0%Q
      | Some kb => (inject_Z kb * BYTES_PER_KB)%Q
      end
  end.

(** What [scanDirectory] learns about one child: [statSync] throws, a file
    with its [stat.size], or a directory with what [du -sk] printed. *)
Inductive child_info :=
| ChildStatFails
| ChildFile (size : Q)
| ChildDir (du_stdout : option jstr).

Record DirEntry := { de_name : jstr; de_path : list jstr; de_size : Q; de_isDir : bool }.

(** The async map callback of [scanDirectory] for the child [name]. *)
Definition scan_child (dirPath : list jstr) (c : jstr * child_info) : option DirEntry :=
  let (name, info) := c in
  let fullPath := dirPath ++ [name] in
  match info with
  | ChildStatFails => None
  | ChildFile sz => Some {| de_name := name; de_path := fullPath; de_size := sz;
                            de_isDir := false |}
  | ChildDir du => Some {| de_name := name; de_path := fullPath; de_size := du_bytes du;
                           de_isDir := true |}
  end.

(** [scanDirectory(dirPath)]; [None] is a [readdirSync] that throws. *)
Definition scanDirectory (dirPath : list jstr) (children : option (list (jstr * child_info)))
    : list DirEntry :=
  match children with
  | None => []
  | Some cs =>
      let results := map (scan_child dirPath) cs in
      let entries := flat_map (fun r => match r with
                                        | Some e => if Qlt_le_dec 0 (de_size e) then [e] else []
                                        | None => []
                                        end) results in
      sort_by (fun a b => de_size b - de_size a)%Q entries
  end.

(** The order of the colours of [getSizeColor], from the smallest size up. *)
Definition color_rank (c : Color) : nat :=
  match c with SecondaryText => 0 | Green => 1 | Yellow => 2 | Orange => 3 | Red => 4 end.

(** ** The clean list of [cleanCategory] (clean.tsx) *)

(** [String.prototype.endsWith]. *)
Definition ends_with (suf s : jstr) : bool := starts_with (rev suf) (rev s).

(** [s.replace(regex, "")] without the g flag: the leftmost match is removed. *)
Fixpoint replace_first (r : re) (s : jstr) : jstr :=
  match match_at r s with
  | Some (rest, _) => rest
  | None => match s with [] => [] | c :: t => c :: replace_first r t end
  end.

Definition is_eq_sign (c : Z) : bool := c =? 61.

(** [/^=+\s*/] and [/\s*=+$/] *)
Definition LEAD_EQ : re := rseq [RRep is_eq_sign 1 true; ws_star].
Definition TRAIL_EQ : re := rseq [ws_star; RRep is_eq_sign 1 true; REnd].

Section CleanList.
(** [String.prototype.toLowerCase] and [existsSync]. *)
Variable toLowerCase : jstr -> jstr.
Variable existsSync : jstr -> bool.

Definition is_list_header (trimmed : jstr) : bool :=
  starts_with (s2j "===") trimmed && ends_with (s2j "===") trimmed.

Definition list_header_name (trimmed : jstr) : jstr :=
  trim (replace_first TRAIL_EQ (replace_prefix LEAD_EQ trimmed)).

(** One iteration of the [for] loop of [getPathsForCategory]:
    (inCategory, paths). *)
Definition clean_list_step (categoryName : jstr) (st : bool * list jstr) (line : jstr)
    : bool * list jstr :=
  let (inCategory, paths) := st in
  let trimmed := trim line in
  if is_list_header trimmed then
    (jstr_eqb (toLowerCase (list_header_name trimmed)) (toLowerCase categoryName), paths)
  else if negb inCategory then st
  else match trimmed with
       | [] => st
       | _ =>
         if starts_with (s2j "#") trimmed then st
         else
           let pathPart := trim (hd [] (split_on 35 trimmed)) in
           match pathPart with
           | [] => st
           | _ => if starts_with (s2j "/") pathPart && existsSync pathPart
                  then (inCategory, paths ++ [pathPart]) else st
           end
       end.

Definition paths_of_lines (categoryName : jstr) (lines : list jstr) : list jstr :=
  snd (fold_left (clean_list_step categoryName) lines (false, [])).

(** [getPathsForCategory(categoryName)]: [content] is what [readFileSync]
    returns, [None] when it throws. *)
Definition getPathsForCategory (content : option jstr) (categoryName : jstr) : list jstr :=
  match content with
  | None => []
  | Some c => paths_of_lines categoryName (split_on NL c)
  end.
End CleanList.

(** ** [confirmAndExecute] (utils.ts) and [cleanCategory] (clean.tsx) *)

Inductive toast_style := Animated | Success | Failure.
Record Toast := { toast_style_of : toast_style; toast_title : jstr; toast_message : option jstr }.

(** "完成！" and "執行失敗" *)
Definition DONE : jstr := [23436; 25104; 65281].
Definition EXEC_FAILED : jstr := [22519; 34892; 22833; 25943].

(** [confirmAndExecute]: [confirmed] is what [confirmAlert] resolves to;
    [onConfirm] is the run of [options.onConfirm()]: the effects it performs
    and, when it throws, the message [error instanceof Error ? error.message
    : String(error)]. The result is the effects and the final state of the
    toast shown as [Animated] "執行中..." before [onConfirm] starts. *)
Definition confirmAndExecute {E : Type} (confirmed : bool) (onConfirm : list E * option jstr)
    : list E * option Toast :=
  if negb confirmed then ([], None)
  else
    let (effs, err) := onConfirm in
    (effs, Some (match err with
                 | None => {| toast_style_of := Success; toast_title := DONE;
                              toast_message := None |}
                 | Some m => {| toast_style_of := Failure; toast_title := EXEC_FAILED;
                                toast_message := Some m |}
                 end)).

Inductive clean_effect := ETrash (paths : list jstr) | EToast (title : jstr) | ERefresh.

(** "已清理" *)
Definition CLEANED : jstr := [24050; 28165; 29702].

Section CleanCategorySec.
Variable toLowerCase : jstr -> jstr.
Variable existsSync : jstr -> bool.
(** The clean list as [readFileSync] reads it ([None]: it throws). *)
Variable clean_list : option jstr.
(** [statSync(p).isDirectory()] ([None]: [statSync] throws), [readdirSync]
    ([None]: it throws), [path.join] and the rejection of [trashPaths]. *)
Variable statIsDir : jstr -> option bool.
Variable readdirSync : jstr -> option (list jstr).
Variable path_join : jstr -> jstr -> jstr.
Variable trash_error : option jstr.

(** The [for] loop building [toTrash]. *)
Definition collect_trash (paths : list jstr) : list jstr :=
  flat_map (fun p => match statIsDir p with
                     | None => []
                     | Some false => [p]
                     | Some true => match readdirSync p with
                                    | None => []
                                    | Some items => map (path_join p) items
                                    end
                     end) paths.

(** The [onConfirm] callback of [cleanCategory] for [paths]; [refresh]
    (a [runDryRun], which catches its own errors) resolves. *)
Definition cleanCategory_onConfirm (category : CleanCategory) (paths : list jstr)
    : list clean_effect * option jstr :=
  let toTrash := match paths with [] => [] | _ => collect_trash paths end in
  let finish := [EToast (CLEANED ++ s2j " " ++ name category); ERefresh] in
  match toTrash with
  | [] => (finish, None)
  | _ => match trash_error with
         | Some m => ([ETrash toTrash], Some m)
         | None => (ETrash toTrash :: finish, None)
         end
  end.

Definition cleanCategory (confirmed : bool) (category : CleanCategory)
    : list clean_effect * option Toast :=
  let paths := getPathsForCategory toLowerCase existsSync clean_list (name category) in
  confirmAndExecute confirmed (cleanCategory_onConfirm category paths).
End CleanCategorySec.

(** ** The application scan [scanApplications] (utils.ts) *)

Definition PROTECTED_BUNDLE_IDS : list jstr :=
  [s2j "com.apple.finder"; s2j "com.apple.Safari"; s2j "com.apple.systempreferences";
   s2j "com.apple.AppStore"; s2j "com.apple.Terminal"; s2j "com.apple.dt.Xcode"].

Definition is_protected (bundleId : jstr) : bool := existsb (jstr_eqb bundleId) PROTECTED_BUNDLE_IDS.

(** [/\.app$/] *)
Definition APP_SUFFIX : re := rseq [lit (s2j ".app"); REnd].

Record AppEntry := { app_name : jstr; app_path : jstr; bundleId : jstr; app_size : Q;
                     icon : jstr }.

Section Apps.
(** [path.join] of two segments ([path.join(a, b, c)] is
    [path.join(path.join(a, b), c)]), [existsSync], [readdirSync] ([None]:
    it throws), the stdout of [defaults read <plist> CFBundleIdentifier] and
    of [du -sk <app>] ([None]: the command fails) and [process.env.HOME]. *)
Variable path_join : jstr -> jstr -> jstr.
Variable existsSync : jstr -> bool.
Variable readdirSync : jstr -> option (list jstr).
Variable defaults_read : jstr -> option jstr.
Variable du : jstr -> option jstr.
Variable HOME : option jstr.

Definition appDirs : list jstr :=
  [s2j "/Applications";
   path_join (match truthy HOME with Some h => h | None => [] end) (s2j "Applications")].

(** The body of the inner [for] loop for [item] of [appDir]. *)
Definition scan_app (appDir item : jstr) : option AppEntry :=
  if negb (ends_with (s2j ".app") item) then None
  else
    let appPath := path_join appDir item in
    let appName := replace_first APP_SUFFIX item in
    let plistPath := path_join (path_join appPath (s2j "Contents")) (s2j "Info.plist") in
    let bundleId := if existsSync plistPath
                    then match defaults_read plistPath with
                         | Some stdout => trim stdout
                         | None => s2j "unknown"
                         end
                    else s2j "unknown" in
    if is_protected bundleId then None
    else
      let sizeBytes := du_bytes (du appPath) in
      let iconPath := path_join (path_join (path_join appPath (s2j "Contents"))
                                           (s2j "Resources")) (s2j "AppIcon.icns") in
      let icon := if existsSync iconPath then iconPath else appPath in
      Some {| app_name := appName; app_path := appPath; bundleId := bundleId;
              app_size := sizeBytes; icon := icon |}.

Definition scan_app_dir (appDir : jstr) : list AppEntry :=
  if negb (existsSync appDir) then []
  else match readdirSync appDir with
       | None => []
       | Some items => flat_map (fun item => match scan_app appDir item with
                                             | Some a => [a] | None => [] end) items
       end.

Definition scanApplications : list AppEntry :=
  sort_by (fun a b => app_size b - app_size a)%Q (flat_map scan_app_dir appDirs).
End Apps.

(** ** The roots of the purge scan [discoverPurgeTargets] (purge.tsx) *)

Definition searchDirs : list jstr :=
  [s2j "www"; s2j "dev"; s2j "Projects"; s2j "GitHub"; s2j "Code"; s2j "Workspace";
   s2j "Repos"; s2j "Development"; []].

Section Discover.
(** [path.join], [existsSync], [readFileSync] of the config file ([None]:
    it throws), [process.env.HOME], and the items that
    [findPurgeTargetsNative(p, 1, 4, targetNames, items)] pushes for the root
    [p] (the walk [findPurgeTargets] on the tree at [p]). *)
Variable path_join : jstr -> jstr -> jstr.
Variable existsSync : jstr -> bool.
Variable readConfig : option jstr.
Variable HOME : option jstr.
Variable findPurgeTargetsAt : jstr -> list PurgeItem.

Definition home : jstr := match truthy HOME with Some h => h | None => [] end.

Definition default_search_paths : list jstr :=
  filter existsSync (map (path_join home) searchDirs).

Definition molePathsConfig : jstr := path_join home (s2j ".config/mole/purge_paths").

Definition customPaths (content : jstr) : list jstr :=
  filter (fun l => match l with
                   | [] => false
                   | _ => negb (starts_with (s2j "#") l)
                   end) (map trim (split_on NL content)).

(** One iteration of the [for] loop over [customPaths]. *)
Definition add_custom (searchPaths : list jstr) (p0 : jstr) : list jstr :=
  let p := if starts_with (s2j "~/") p0 then path_join home (skipn 2 p0) else p0 in
  if existsSync p && negb (existsb (jstr_eqb p) searchPaths) then searchPaths ++ [p]
  else searchPaths.

Definition searchPaths : list jstr :=
  if existsSync molePathsConfig then
    match readConfig with
    | Some content => fold_left add_custom (customPaths content) default_search_paths
    | None => default_search_paths
    end
  else default_search_paths.

(** The shared [items] array after the [for] loop over [searchPaths]. *)
Definition discoverPurgeTargets : list PurgeItem :=
  match searchPaths with
  | [] => []
  | _ => flat_map findPurgeTargetsAt searchPaths
  end.
End Discover.

(** The summary the summary lines of a scan leave: that of the last one. *)
Definition last_summary (lines : list jstr) : option CleanSummary :=
  fold_left (fun acc l => match classify_line l with LSummary sm => Some sm | _ => acc end)
            lines None.

(** Paths below [dir], at most [maxDepth - d] levels down, through no
    skipped directory. *)
Definition reach_below (targets : jstr -> bool) (maxDepth d : nat) (dir v : list jstr) : Prop :=
  exists mid, v = dir ++ mid /\ (d + length mid <= maxDepth)%nat
              /\ forall x, In x mid -> skipped targets x = false.

(** The lines of [parseDryRunOutput] by section: each header line (in the
    sense of [u_header_name]) with the lines after it up to the next header;
    lines before the first header belong to no section. *)
Fixpoint u_sections_go (cur : option (jstr * list jstr)) (lines : list jstr)
    : list (jstr * list jstr) :=
  match lines with
  | [] => match cur with Some sec => [sec] | None => [] end
  | l :: t =>
      match u_header_name l with
      | Some n => match cur with Some sec => [sec] | None => [] end
                  ++ u_sections_go (Some (n, [])) t
      | None => u_sections_go (option_map (fun sec => (fst sec, snd sec ++ [l])) cur) t
      end
  end.

Definition u_sections (lines : list jstr) : list (jstr * list jstr) := u_sections_go None lines.

(** The [for] loop body of [parseDryRunOutput] on a line that is not a
    header, with an open category. *)
Definition u_body_step (c : UCategory) (line : jstr) : UCategory :=
  match trim (stripAnsi line) with
  | [] => c
  | stripped =>
      match match_at U_DRY_REGEX stripped with
      | Some (_, cs) => u_set c (uitems c ++ [cap 1 cs]) (cap 2 cs)
      | None =>
        match match_at U_SUCCESS_REGEX stripped with
        | Some (_, cs) => u_set c (uitems c ++ [cap 1 cs]) (cap 2 cs)
        | None =>
          if contains (s2j "Nothing to clean") stripped then u_set c (uitems c) (s2j "0 B") else c
        end
      end
  end.

Definition u_section_category (sec : jstr * list jstr) : UCategory :=
  fold_left u_body_step (snd sec)
            {| uname := fst sec; usize := []; uisDryRun := true; uitems := [] |}.

(** Item lines ([⊘ ..., SIZE dry] or [✓ ..., SIZE]) and "Nothing to clean"
    lines of a section body. *)
Definition u_item_line (line : jstr) : bool :=
  match trim (stripAnsi line) with
  | [] => false
  | stripped =>
      match match_at U_DRY_REGEX stripped with
      | Some _ => true
      | None => match match_at U_SUCCESS_REGEX stripped with Some _ => true | None => false end
      end
  end.

Definition u_nothing_line (line : jstr) : bool :=
  match trim (stripAnsi line) with
  | [] => false
  | stripped => contains (s2j "Nothing to clean") stripped
  end.

(* ================================================================== *)
(** * Proofs *)

(** ** The clean parser *)




Lemma positive_sizes_app (l1 l2 : list CleanItem) :
  positive_sizes (l1 ++ l2) = positive_sizes l1 ++ positive_sizes l2.
Proof.
  induction l1 as [|it l1 IH]; [reflexivity|].
  simpl. rewrite IH.
  destruct (parseSizeToBytes (size it)) as [q|]; [destruct (Qlt_le_dec 0 q)|]; reflexivity.
Qed.

Lemma finalize_total (c : CleanCategory) :
  total_inv c ->
  finalizeCategorySize c = {| name := name c; items := items c; totalSize := total_of (items c) |}.
Proof.
  unfold total_inv, finalizeCategorySize, total_of. intros Hinv.
  destruct (positive_sizes (items c)) eqn:E.
  - destruct c as [n its t]; simpl in *. rewrite (Hinv eq_refl). reflexivity.
  - reflexivity.
Qed.

Lemma total_of_nil : total_of [] = [].
Proof. reflexivity. Qed.

Lemma total_inv_of_total (n : jstr) (its : list CleanItem) :
  total_inv {| name := n; items := its; totalSize := total_of its |}.
Proof. unfold total_inv, total_of; simpl; intros E; rewrite E; reflexivity. Qed.

Lemma total_inv_push (c : CleanCategory) (it : CleanItem) :
  total_inv c -> total_inv (push_item c it).
Proof.
  unfold total_inv, push_item; simpl. rewrite positive_sizes_app. intros H E.
  apply H. destruct (positive_sizes (items c)); [reflexivity | discriminate].
Qed.

Lemma total_inv_finalize (c : CleanCategory) :
  total_inv c -> total_inv (finalizeCategorySize c).
Proof.
  intros H. rewrite (finalize_total c H). apply total_inv_of_total.
Qed.

Lemma header_name_classify (l : jstr) :
  header_name l = match classify_line l with LHeader n => Some n | _ => None end.
Proof.
  unfold header_name, classify_line.
  destruct (trim (stripAnsi l)) as [|c t]; [reflexivity|].
  destruct (search SUMMARY_REGEX (c :: t)) as [[? ?]|]; [reflexivity|].
  destruct (starts_with [ARROW_HEAD] (c :: t)); [reflexivity|].
  destruct (match_at DRY_REGEX (c :: t)) as [[? ?]|]; [reflexivity|].
  destruct (match_at WOULD_REGEX (c :: t)) as [[? ?]|]; [reflexivity|].
  destruct (match_at SIMPLE_REGEX (c :: t)) as [[? cs]|].
  - destruct (negb (starts_with (s2j "/") (cap 1 cs))); [reflexivity|].
    destruct (starts_with [BULLET] (c :: t)); reflexivity.
  - destruct (starts_with [BULLET] (c :: t)); reflexivity.
Qed.




Lemma extend_nil (c : CleanCategory) :
  total_inv c -> extend c [] = finalizeCategorySize c.
Proof.
  intros H. rewrite (finalize_total c H). unfold extend. rewrite app_nil_r. reflexivity.
Qed.

Lemma on_line_inv (l : jstr) (s : clean_state) :
  scan_inv s -> scan_inv (on_line 1 l s).
Proof.
  intros Hs. pose proof Hs as (Hid & Hc & Hn). unfold on_line.
  assert (Hg : Nat.eqb (currentScanId s) 1 = true) by (rewrite Hid; reflexivity).
  rewrite Hg. simpl.
  destruct (classify_line l) as [| sm | n | it dry | st |]; try exact Hs.
  - unfold commit_current.
    destruct (currentCategoryRef s) eqn:E; simpl;
      (split; [exact Hid | split; [intros c' Hc'; injection Hc' as <-;
                                   apply total_inv_of_total | discriminate]]).
  - destruct (currentCategoryRef s) as [c|] eqn:E; [|exact Hs].
    split; [exact Hid | split; [| discriminate]].
    intros c' Hc'; injection Hc' as <-.
    assert (total_inv (push_item c it)) by (apply total_inv_push, Hc; reflexivity).
    destruct dry; [apply total_inv_finalize|]; assumption.
  - destruct (currentCategoryRef s) as [c|] eqn:E; [|exact Hs].
    split; [exact Hid | split; [exact Hc | discriminate]].
Qed.

Lemma on_line_committed (l : jstr) (lines : list jstr) (s : clean_state) :
  scan_inv s -> committed_spec (on_line 1 l s) lines = committed_spec s (l :: lines).
Proof.
  intros (Hid & Hc & Hn).
  unfold committed_spec; simpl.
  destruct (split_sections lines) as [pre secs].
  rewrite header_name_classify.
  unfold on_line.
  assert (Hg : Nat.eqb (currentScanId s) 1 = true) by (rewrite Hid; reflexivity).
  assert (Hit : item_line l = match classify_line l with LItem it _ => Some it | _ => None end)
    by reflexivity.
  rewrite Hg. simpl.
  destruct (classify_line l) as [| sm | n | it dry | st |]; simpl; rewrite ?Hit;
    try reflexivity.
  - unfold commit_current.
    destruct (currentCategoryRef s) as [c|] eqn:E; simpl.
    + rewrite <- app_assoc. simpl. rewrite extend_nil by (apply Hc; reflexivity).
      reflexivity.
    + reflexivity.
  - destruct (currentCategoryRef s) as [c|] eqn:E; simpl; [|rewrite E; reflexivity].
    assert (Hp : forall c', name c' = name c -> items c' = items c ++ [it] ->
                    extend c' (items_of pre) = extend c (it :: items_of pre)).
    { intros c' H1 H2. unfold extend. rewrite H1, H2, <- app_assoc. reflexivity. }
    assert (Hf : total_inv (push_item c it)) by (apply total_inv_push, Hc; reflexivity).
    destruct dry.
    + rewrite (Hp (finalizeCategorySize (push_item c it)));
        [reflexivity | rewrite (finalize_total _ Hf); reflexivity
        | rewrite (finalize_total _ Hf); reflexivity].
    + rewrite (Hp (push_item c it)) by reflexivity. reflexivity.
  - destruct (currentCategoryRef s) eqn:E; rewrite ?E; reflexivity.
Qed.

Lemma lines_run_committed (lines : list jstr) (s : clean_state) :
  scan_inv s ->
  scan_inv (fold_left scan_step (map (ScanLine 1) lines) s)
  /\ committed (fold_left scan_step (map (ScanLine 1) lines) s) = committed_spec s lines.
Proof.
  revert s. induction lines as [|l lines IH]; intros s Hs.
  - split; [exact Hs|]. unfold committed, committed_spec; simpl.
    destruct (currentCategoryRef s) as [c|] eqn:E; [|reflexivity].
    rewrite extend_nil by (apply (proj1 (proj2 Hs)); exact E). reflexivity.
  - simpl. destruct (IH (on_line 1 l s) (on_line_inv l s Hs)) as [H1 H2].
    split; [exact H1|]. rewrite H2. apply on_line_committed, Hs.
Qed.

Lemma count_headers_sections (lines : list jstr) :
  length (sections lines) = count_headers lines.
Proof.
  unfold sections, count_headers. induction lines as [|l t IH]; [reflexivity|].
  simpl. destruct (split_sections t) as [pre secs]. simpl in *.
  destruct (header_name l); simpl; congruence.
Qed.

Lemma parse_clean_sections (lines : list jstr) :
  parse_clean lines = map category_of_section (sections lines).
Proof.
  unfold parse_clean, run_events. simpl. rewrite fold_left_app. simpl.
  assert (H0 : scan_inv (start_state 1)).
  { repeat split; discriminate. }
  destruct (lines_run_committed lines (start_state 1) H0) as [(Hid & Hc & Hn) H2].
  set (s := fold_left scan_step (map (ScanLine 1) lines) (start_state 1)) in *.
  unfold on_resolved, finally_block. rewrite Hid. simpl.
  unfold committed, committed_spec, sections in *. simpl in H2.
  destruct (split_sections lines) as [pre secs]. simpl.
  unfold commit_current.
  destruct (currentCategoryRef s) as [c|] eqn:E; simpl.
  - rewrite Hid. exact H2.
  - destruct (Hn eq_refl) as [R C]. rewrite Hid. simpl. rewrite C. rewrite R in H2. exact H2.
Qed.

(** ** The scan token guard *)

Lemma stale_event_noop (e : scan_event) (id : nat) (s : clean_state) :
  event_token e = Some id -> id <> currentScanId s -> scan_step s e = s.
Proof.
  intros Ht Hne.
  assert (Hg : Nat.eqb (currentScanId s) id = false) by (apply Nat.eqb_neq; congruence).
  destruct e as [| id' l | id' | id' m | id']; simpl in Ht; try discriminate;
    injection Ht as Hx; subst id'; simpl;
    unfold on_line, on_resolved, on_rejected, finally_block; try rewrite Hg; reflexivity.
Qed.

Lemma scan_step_keeps_token (s : clean_state) (e : scan_event) :
  e <> ScanStart -> currentScanId (scan_step s e) = currentScanId s.
Proof.
  intros He. destruct e as [| id l | id | id m | id]; [congruence | ..]; simpl.
  - unfold on_line. destruct (Nat.eqb (currentScanId s) id); simpl; [|reflexivity].
    destruct (classify_line l); simpl; try reflexivity;
      try (destruct (currentCategoryRef s); reflexivity).
    unfold commit_current; destruct (currentCategoryRef s); reflexivity.
  - unfold on_resolved, finally_block, commit_current.
    destruct (Nat.eqb (currentScanId s) id) eqn:E; simpl.
    + destruct (currentCategoryRef s); simpl; rewrite ?E; reflexivity.
    + rewrite ?E; reflexivity.
  - unfold on_rejected, finally_block.
    destruct (Nat.eqb (currentScanId s) id) eqn:E; simpl; [reflexivity | rewrite ?E; reflexivity].
  - unfold finally_block. destruct (Nat.eqb (currentScanId s) id); reflexivity.
Qed.


Lemma run_without_start (post : list scan_event) (s : clean_state) :
  ~ In ScanStart post ->
  run_events post s = run_events (filter (of_scan (currentScanId s)) post) s.
Proof.
  revert s. induction post as [|e post IH]; intros s Hno; [reflexivity|].
  assert (He : e <> ScanStart) by (intros ->; apply Hno; left; reflexivity).
  assert (Hno' : ~ In ScanStart post) by (intros H; apply Hno; right; exact H).
  unfold run_events in *. simpl.
  destruct (of_scan (currentScanId s) e) eqn:Eo; simpl.
  - rewrite IH by exact Hno'. rewrite scan_step_keeps_token by exact He. reflexivity.
  - destruct (event_token e) as [id|] eqn:Et.
    + unfold of_scan in Eo; rewrite Et in Eo. apply Nat.eqb_neq in Eo.
      rewrite (stale_event_noop e id s Et Eo). apply IH, Hno'.
    + destruct e; simpl in Et; try discriminate; congruence.
Qed.

(** C2: once scan [n] has been started (token [n] issued), no callback of
    an older scan changes the state: any event whose token is not the
    latest leaves the whole state (UI state and refs) unchanged, so the
    final state after [ScanStart] is the replay of the events of scan [n]
    alone from the freshly reset state, and nothing produced under a stale
    token is in it. *)
Theorem stale_scan_discarded (tr post : list scan_event) (s : clean_state) :
  ~ In ScanStart post ->
  run_events (tr ++ ScanStart :: post) s
  = run_events (filter (of_scan (S (currentScanId (run_events tr s)))) post)
               (start_state (S (currentScanId (run_events tr s))))
  /\ (forall e id st, event_token e = Some id -> id <> currentScanId st -> scan_step st e = st).
Proof.
  intros Hno. split.
  - unfold run_events at 1. rewrite fold_left_app. simpl.
    fold (run_events tr s).
    apply (run_without_start post (start_state (S (currentScanId (run_events tr s)))) Hno).
  - intros e id st; apply stale_event_noop.
Qed.

Lemma stale_scan_discarded_witness :
  ~ In ScanStart [ScanLine 1 (s2j "x"); ScanResolved 2]
  /\ run_events ([ScanStart] ++ ScanStart :: [ScanLine 1 (s2j "x"); ScanResolved 2]) initial_state
     = run_events (filter (of_scan 2) [ScanLine 1 (s2j "x"); ScanResolved 2]) (start_state 2).
Proof.
  assert (H : ~ In ScanStart [ScanLine 1 (s2j "x"); ScanResolved 2])
    by (simpl; intros [H|[H|H]]; discriminate || contradiction).
  split; [exact H|].
  exact (proj1 (stale_scan_discarded [ScanStart] [ScanLine 1 (s2j "x"); ScanResolved 2]
                  initial_state H)).
Defined.

(** ** The buffered parser *)

Open Scope nat_scope.




Lemma filter_named_app (l1 l2 : list UCategory) :
  length (filter (fun c => match uname c with [] => false | _ => true end) (l1 ++ l2))
  = length (filter (fun c => match uname c with [] => false | _ => true end) l1)
  + length (filter (fun c => match uname c with [] => false | _ => true end) l2).
Proof. rewrite filter_app, length_app; reflexivity. Qed.

Lemma u_step_measure (st : list UCategory * option UCategory) (line : jstr) :
  u_measure (u_step st line) = u_measure st + named_header line.
Proof.
  destruct st as [cats cur]. unfold u_step, named_header, u_header_name.
  destruct (trim (stripAnsi line)) as [|g t] eqn:E; [lia|].
  destruct (is_u_header_glyph g).
  - unfold u_measure; simpl. rewrite filter_named_app.
    destruct cur as [c|]; simpl;
      [unfold named; destruct (uname c); simpl|]; reflexivity.
  - destruct cur as [c|]; [|simpl; lia].
    destruct (match_at U_DRY_REGEX (g :: t)) as [[? ?]|];
      [unfold u_measure; simpl; unfold named; simpl; lia|].
    destruct (match_at U_SUCCESS_REGEX (g :: t)) as [[? ?]|];
      [unfold u_measure; simpl; unfold named; simpl; lia|].
    destruct (contains (s2j "Nothing to clean") (g :: t));
      unfold u_measure; simpl; unfold named; simpl; lia.
Qed.

Lemma u_fold_measure (lines : list jstr) (st : list UCategory * option UCategory) :
  u_measure (fold_left u_step lines st)
  = u_measure st + fold_right (fun l n => named_header l + n) 0 lines.
Proof.
  revert st. induction lines as [|l t IH]; intros st; simpl; [lia|].
  rewrite IH, u_step_measure. lia.
Qed.

Lemma parseDryRunOutput_count (output : jstr) :
  length (parseDryRunOutput output)
  = fold_right (fun l n => named_header l + n) 0 (split_on NL output).
Proof.
  unfold parseDryRunOutput.
  pose proof (u_fold_measure (split_on NL output) ([], None)) as H.
  destruct (fold_left u_step (split_on NL output) ([], None)) as [cats cur].
  unfold u_measure in H; simpl in H. rewrite filter_named_app.
  destruct cur as [c|]; simpl in *; [unfold named in H; destruct (uname c)|]; simpl; lia.
Qed.

Lemma u_step_body (cats : list UCategory) (c : UCategory) (l : jstr) :
  u_header_name l = None -> u_step (cats, Some c) l = (cats, Some (u_body_step c l)).
Proof.
  unfold u_header_name, u_step, u_body_step.
  destruct (trim (stripAnsi l)) as [|g t]; intros H; [reflexivity|].
  destruct (is_u_header_glyph g); [discriminate|].
  destruct (match_at U_DRY_REGEX (g :: t)) as [[? ?]|]; [reflexivity|].
  destruct (match_at U_SUCCESS_REGEX (g :: t)) as [[? ?]|]; [reflexivity|].
  destruct (contains (s2j "Nothing to clean") (g :: t)); reflexivity.
Qed.

Lemma u_step_none (cats : list UCategory) (l : jstr) :
  u_header_name l = None -> u_step (cats, None) l = (cats, None).
Proof.
  unfold u_header_name, u_step.
  destruct (trim (stripAnsi l)) as [|g t]; intros H; [reflexivity|].
  destruct (is_u_header_glyph g); [discriminate | reflexivity].
Qed.

Lemma u_step_header (cats : list UCategory) (cur : option UCategory) (l n : jstr) :
  u_header_name l = Some n ->
  u_step (cats, cur) l
  = (cats ++ match cur with Some c => [c] | None => [] end,
     Some {| uname := n; usize := []; uisDryRun := true; uitems := [] |}).
Proof.
  unfold u_header_name, u_step.
  destruct (trim (stripAnsi l)) as [|g t]; intros H; [discriminate|].
  destruct (is_u_header_glyph g); [|discriminate]. injection H as <-. reflexivity.
Qed.

Lemma u_fold_sections (lines : list jstr) : forall cats sec,
  let r := fold_left u_step lines (cats, option_map u_section_category sec) in
  fst r ++ match snd r with Some c => [c] | None => [] end
  = cats ++ map u_section_category (u_sections_go sec lines).
Proof.
  induction lines as [|l t IH]; intros cats sec; cbn zeta.
  - destruct sec; reflexivity.
  - cbn [fold_left u_sections_go]. destruct (u_header_name l) as [n|] eqn:Hh.
    + rewrite (u_step_header _ _ _ n Hh).
      pose proof (IH (cats ++ match option_map u_section_category sec with
                              | Some c => [c] | None => [] end) (Some (n, []))) as E.
      cbn zeta in E. cbn [option_map] in E.
      change (u_section_category (n, []))
        with {| uname := n; usize := []; uisDryRun := true; uitems := [] |} in E.
      rewrite E, map_app, app_assoc.
      destruct sec; reflexivity.
    + destruct sec as [[n b]|].
      * cbn [option_map]. rewrite (u_step_body _ _ _ Hh).
        assert (Eb : u_body_step (u_section_category (n, b)) l = u_section_category (n, b ++ [l]))
          by (unfold u_section_category; cbn [fst snd]; rewrite fold_left_app; reflexivity).
        rewrite Eb. exact (IH cats (Some (n, b ++ [l]))).
      * cbn [option_map]. rewrite (u_step_none _ _ Hh). exact (IH cats None).
Qed.

Lemma parseDryRunOutput_sections (output : jstr) :
  parseDryRunOutput output
  = filter (fun c => match uname c with [] => false | _ => true end)
           (map u_section_category (u_sections (split_on NL output))).
Proof.
  unfold parseDryRunOutput, u_sections.
  pose proof (u_fold_sections (split_on NL output) [] None) as E. cbn zeta in E.
  cbn [option_map] in E.
  destruct (fold_left u_step (split_on NL output) ([], None)) as [cats cur].
  cbn [fst snd] in E. rewrite E. reflexivity.
Qed.

Lemma u_body_fold_name (body : list jstr) : forall c,
  uname (fold_left u_body_step body c) = uname c.
Proof.
  induction body as [|l t IH]; intros c; [reflexivity|]. cbn [fold_left]. rewrite IH.
  unfold u_body_step. destruct (trim (stripAnsi l)) as [|g s]; [reflexivity|].
  destruct (match_at U_DRY_REGEX (g :: s)) as [[? ?]|]; [reflexivity|].
  destruct (match_at U_SUCCESS_REGEX (g :: s)) as [[? ?]|]; [reflexivity|].
  destruct (contains (s2j "Nothing to clean") (g :: s)); reflexivity.
Qed.

Lemma u_body_fold_no_items (body : list jstr) : forall c,
  uitems (fold_left u_body_step body c) = [] ->
  uitems c = [] /\ forall l, In l body -> u_item_line l = false.
Proof.
  induction body as [|l t IH]; intros c H; [split; [exact H | intros ? []]|].
  cbn [fold_left] in H. destruct (IH _ H) as [H1 H2].
  assert (Hl : uitems c = [] /\ u_item_line l = false).
  { revert H1. unfold u_body_step, u_item_line.
    destruct (trim (stripAnsi l)) as [|g s]; [tauto|].
    destruct (match_at U_DRY_REGEX (g :: s)) as [[? ?]|];
      [cbn; intros Hc; destruct (uitems c); discriminate|].
    destruct (match_at U_SUCCESS_REGEX (g :: s)) as [[? ?]|];
      [cbn; intros Hc; destruct (uitems c); discriminate|].
    destruct (contains (s2j "Nothing to clean") (g :: s)); cbn; tauto. }
  split; [exact (proj1 Hl)|]. intros l' [<-|Hin]; [exact (proj2 Hl) | exact (H2 l' Hin)].
Qed.

Lemma u_body_fold_size (body : list jstr) : forall n sz,
  (forall l, In l body -> u_item_line l = false) ->
  fold_left u_body_step body {| uname := n; usize := sz; uisDryRun := true; uitems := [] |}
  = {| uname := n; usize := if existsb u_nothing_line body then s2j "0 B" else sz;
       uisDryRun := true; uitems := [] |}.
Proof.
  induction body as [|l t IH]; intros n sz H; [reflexivity|].
  cbn [fold_left existsb].
  assert (Hl : u_item_line l = false) by (apply H; left; reflexivity).
  assert (Ht : forall l', In l' t -> u_item_line l' = false) by (intros l' Hi; apply H; right; exact Hi).
  assert (E : u_body_step {| uname := n; usize := sz; uisDryRun := true; uitems := [] |} l
              = {| uname := n; usize := if u_nothing_line l then s2j "0 B" else sz;
                   uisDryRun := true; uitems := [] |}).
  { revert Hl. unfold u_body_step, u_item_line, u_nothing_line.
    destruct (trim (stripAnsi l)) as [|g s]; [reflexivity|].
    destruct (match_at U_DRY_REGEX (g :: s)) as [[? ?]|]; [discriminate|].
    destruct (match_at U_SUCCESS_REGEX (g :: s)) as [[? ?]|]; [discriminate|].
    destruct (contains (s2j "Nothing to clean") (g :: s)); reflexivity. }
  rewrite E, (IH n _ Ht).
  destruct (u_nothing_line l), (existsb u_nothing_line t); reflexivity.
Qed.

Lemma parseDryRunOutput_empty_sizes (output : jstr) (c : UCategory) :
  In c (parseDryRunOutput output) -> uitems c = [] ->
  exists body, In (uname c, body) (u_sections (split_on NL output))
    /\ (forall l, In l body -> u_item_line l = false)
    /\ usize c = if existsb u_nothing_line body then s2j "0 B" else [].
Proof.
  rewrite parseDryRunOutput_sections. intros Hin Hi.
  apply filter_In in Hin as [Hin _]. apply in_map_iff in Hin as [[n body] [<- Hs]].
  unfold u_section_category in *. cbn [fst snd] in *.
  destruct (u_body_fold_no_items body _ Hi) as [_ Hb].
  rewrite (u_body_fold_size body n [] Hb). cbn [uname usize].
  exists body. split; [exact Hs|]. split; [exact Hb | reflexivity].
Qed.

Open Scope Z_scope.

Lemma flat_map_no_items (body : list jstr) :
  (forall l, In l body -> item_line l = None) ->
  flat_map (fun l => match item_line l with Some it => [it] | None => [] end) body = [].
Proof.
  induction body as [|l t IH]; intros H; [reflexivity|]. simpl.
  rewrite (H l (or_introl eq_refl)). apply IH. intros l' Hl'. apply H. right. exact Hl'.
Qed.

(** C1 (amended): the streaming parser of [runDryRun] commits exactly one
    category per section-header line (a line that, stripped and trimmed, starts
    with '➤' and is not the summary trailer), in order, each holding the item
    lines of its section; a section without item lines gives a category with
    empty items and an empty total. The buffered parser [parseDryRunOutput]
    commits one category per '▶'/'→' header whose name is non-empty (headers
    with an empty name are dropped), and an item-less category there comes
    from a section without item lines and has the size "0 B" when a line of
    that section contains "Nothing to clean", and "" when none does. *)
Theorem dry_run_categories (lines : list jstr) (output : jstr) :
  parse_clean lines = map category_of_section (sections lines)
  /\ length (parse_clean lines) = count_headers lines
  /\ (forall i n body, nth_error (sections lines) i = Some (n, body) ->
        (forall l, In l body -> item_line l = None) ->
        nth_error (parse_clean lines) i = Some {| name := n; items := []; totalSize := [] |})
  /\ length (parseDryRunOutput output)
     = fold_right (fun l k => named_header l + k)%nat 0%nat (split_on NL output)
  /\ (forall c, In c (parseDryRunOutput output) -> uitems c = [] ->
        exists body, In (uname c, body) (u_sections (split_on NL output))
          /\ (forall l, In l body -> u_item_line l = false)
          /\ usize c = if existsb u_nothing_line body then s2j "0 B" else []).
Proof.
  split; [apply parse_clean_sections|].
  split; [rewrite parse_clean_sections, length_map; apply count_headers_sections|].
  split.
  - intros i n body Hi Hb. rewrite parse_clean_sections, nth_error_map, Hi. simpl.
    unfold category_of_section. simpl. rewrite (flat_map_no_items body Hb). reflexivity.
  - split; [apply parseDryRunOutput_count | apply parseDryRunOutput_empty_sizes].
Qed.

Lemma dry_run_categories_witness :
  nth_error (parse_clean [s2j "x"; [ARROW_HEAD] ++ s2j " Developer Tools"]) 0%nat
  = Some {| name := s2j "Developer Tools"; items := []; totalSize := [] |}
  /\ exists body,
       In (s2j "Dev", body)
          (u_sections (split_on NL ([TRIANGLE] ++ s2j " Dev" ++ [NL; CHECK] ++ s2j " Nothing to clean")))
       /\ (forall l, In l body -> u_item_line l = false)
       /\ s2j "0 B" = if existsb u_nothing_line body then s2j "0 B" else [].
Proof.
  split.
  - apply (proj1 (proj2 (proj2
      (dry_run_categories [s2j "x"; [ARROW_HEAD] ++ s2j " Developer Tools"] [])))
      0%nat (s2j "Developer Tools") []).
    + vm_compute. reflexivity.
    + intros l [].
  - exact (proj2 (proj2 (proj2 (proj2
      (dry_run_categories []
         ([TRIANGLE] ++ s2j " Dev" ++ [NL; CHECK] ++ s2j " Nothing to clean")))))
      {| uname := s2j "Dev"; usize := s2j "0 B"; uisDryRun := true; uitems := [] |}
      ltac:(vm_compute; left; reflexivity) eq_refl).
Defined.

(** C1, counterexample: for [parseDryRunOutput], the output made of the single
    header line "▶" (empty name) yields no category at all, and the header
    "▶ Dev" followed by "✓ Nothing to clean" yields an item-less category whose
    size is "0 B", not an empty total. *)
Lemma dry_run_categories_counterexample :
  length (parseDryRunOutput [TRIANGLE]) = 0%nat
  /\ u_header_name [TRIANGLE] = Some []
  /\ parseDryRunOutput ([TRIANGLE] ++ s2j " Dev" ++ [NL; CHECK] ++ s2j " Nothing to clean")
     = [{| uname := s2j "Dev"; usize := s2j "0 B"; uisDryRun := true; uitems := [] |}].
Proof. vm_compute. repeat split. Qed.

(** ** Formatting sizes *)

(** C10: [formatBytes] renders every byte count [b <= 0], negative ones
    included, as "0 B". *)
Theorem formatBytes_nonpositive (b : Q) : (b <= 0)%Q -> formatBytes b = s2j "0 B".
Proof.
  intros H. unfold formatBytes. apply Qle_bool_iff in H. rewrite H. reflexivity.
Qed.

Lemma formatBytes_nonpositive_witness : (-5 <= 0)%Q /\ formatBytes (-5) = s2j "0 B".
Proof.
  split; [vm_compute; discriminate | apply (formatBytes_nonpositive (-5)); vm_compute; discriminate].
Defined.

Lemma toFixed_pos_proper (x y : Q) (f : nat) : (x == y)%Q -> toFixed_pos x f = toFixed_pos y f.
Proof.
  intros H. unfold toFixed_pos.
  replace (Qfloor (y * inject_Z (10 ^ Z.of_nat f) + (1 # 2))%Q)
    with (Qfloor (x * inject_Z (10 ^ Z.of_nat f) + (1 # 2))%Q)
    by (apply Qfloor_comp; rewrite H; reflexivity).
  reflexivity.
Qed.

Lemma toFixed_proper (x y : Q) (f : nat) : (x == y)%Q -> toFixed x f = toFixed y f.
Proof.
  intros H. unfold toFixed.
  destruct (Qlt_le_dec x 0), (Qlt_le_dec y 0); try (exfalso; rewrite H in *; lra).
  - f_equal. apply toFixed_pos_proper. rewrite H. reflexivity.
  - apply toFixed_pos_proper. exact H.
Qed.

Lemma num_to_string_proper (x y : Q) : (x == y)%Q -> num_to_string x = num_to_string y.
Proof.
  intros H. unfold num_to_string.
  assert (E : Qeq_bool x 0 = Qeq_bool y 0).
  { destruct (Qeq_bool x 0) eqn:E1, (Qeq_bool y 0) eqn:E2; try reflexivity;
      apply Qeq_bool_iff in E1 || apply Qeq_bool_iff in E2;
      exfalso; [apply Qeq_bool_neq in E2 | apply Qeq_bool_neq in E1];
      rewrite H in *; contradiction. }
  rewrite E. destruct (Qeq_bool y 0); [reflexivity|].
  unfold num_to_string_pos.
  destruct (Qlt_le_dec x 0), (Qlt_le_dec y 0); try (exfalso; rewrite H in *; lra).
  - rewrite (Qred_complete (- x) (- y)) by (rewrite H; reflexivity). reflexivity.
  - rewrite (Qred_complete x y H). reflexivity.
Qed.

Lemma pow1024_pos (k : nat) : (1 <= pow1024 k)%Q.
Proof. induction k as [|k IH]; simpl; lra. Qed.

Lemma formatBytes_loop_units (k : nat) : forall (v size : Q) (i fuel : nat),
  (1 <= v)%Q -> (v < 1024)%Q -> (size == v * pow1024 k)%Q ->
  (i + k <= 4)%nat -> (k <= fuel)%nat ->
  (fst (formatBytes_loop fuel size i) == v)%Q /\ snd (formatBytes_loop fuel size i) = (i + k)%nat.
Proof.
  induction k as [|k IH]; intros v size i fuel H1 H2 Hs Hi Hf.
  - simpl in Hs. assert (Hlt : Qle_bool BYTES_PER_KB size = false).
    { destruct (Qle_bool BYTES_PER_KB size) eqn:E; [|reflexivity].
      apply Qle_bool_iff in E. unfold BYTES_PER_KB in E. exfalso. lra. }
    destruct fuel as [|fu]; simpl; [split; [lra | lia]|].
    rewrite Hlt. simpl. split; [lra | lia].
  - destruct fuel as [|fu]; [lia|]. simpl.
    pose proof (pow1024_pos k) as Hp. simpl in Hs.
    assert (Hge : Qle_bool BYTES_PER_KB size = true).
    { apply Qle_bool_iff. unfold BYTES_PER_KB. rewrite Hs.
      assert (1 <= v * pow1024 k)%Q by (apply (Qle_trans _ (1 * 1)); [lra|];
        apply Qmult_le_compat_nonneg; lra).
      lra. }
    assert (Hlen : (i <? 4)%nat = true) by (apply Nat.ltb_lt; lia).
    rewrite Hge, Hlen. simpl.
    replace (i + S k)%nat with (S i + k)%nat by lia.
    apply IH; try assumption; [|lia|lia].
    rewrite Hs. unfold BYTES_PER_KB. field.
Qed.

Lemma Qle_bool_false (x y : Q) : (y < x)%Q -> Qle_bool x y = false.
Proof.
  intros H. destruct (Qle_bool x y) eqn:E; [|reflexivity].
  apply Qle_bool_iff in E. exfalso. lra.
Qed.

Ltac size_cmp :=
  repeat match goal with
  | |- context [Qle_bool ?x ?y] =>
      first [ rewrite (proj2 (Qle_bool_iff x y)) by (unfold GiB, MiB, KiB; lra)
            | rewrite (Qle_bool_false x y) by (unfold GiB, MiB, KiB; lra) ]
  end.

(** C4 (amended): for a value [v] with [1 <= v < 1024] of the unit of index
    [k] of B, KB, MB, GB, TB, [formatBytes] gives back that unit with [v]
    rounded to zero decimals for B and to one decimal from KB up; the clean
    view's [formatBytesShort] gives back the unit for B, KB, MB and GB, with
    [v] unrounded (in [Number::toString]) for B, zero decimals for KB and one
    decimal for MB and GB, and renders a TB value in GB. *)
Theorem size_format_units (v : Q) (k : nat) :
  (1 <= v)%Q -> (v < 1024)%Q -> (k <= 4)%nat ->
  formatBytes (v * pow1024 k)
  = toFixed v (if Nat.eqb k 0 then 0 else 1) ++ s2j " " ++ nth k SIZE_UNITS []
  /\ formatBytesShort (v * pow1024 k) = short_by_unit v k.
Proof.
  intros H1 H2 Hk. pose proof (pow1024_pos k) as Hp. split.
  - unfold formatBytes.
    assert (Hpos : (1 <= v * pow1024 k)%Q)
      by (apply (Qle_trans _ (1 * 1)); [lra|]; apply Qmult_le_compat_nonneg; lra).
    rewrite (Qle_bool_false (v * pow1024 k) 0) by lra.
    destruct (formatBytes_loop (length SIZE_UNITS) (v * pow1024 k) O) as [sz idx] eqn:E.
    destruct (formatBytes_loop_units k v (v * pow1024 k) O (length SIZE_UNITS)
                H1 H2 ltac:(reflexivity) ltac:(lia) ltac:(simpl; lia)) as [Hs Hi].
    rewrite E in Hs, Hi. simpl in Hs, Hi. subst idx.
    rewrite (toFixed_proper sz v _ Hs). reflexivity.
  - destruct k as [|[|[|[|[|k]]]]]; [| | | | | lia]; unfold formatBytesShort; simpl pow1024;
      size_cmp; simpl short_by_unit; f_equal;
      first [ apply num_to_string_proper | apply toFixed_proper ];
      unfold GiB, MiB, KiB; field.
Qed.

Lemma size_format_units_witness :
  formatBytes (3 * pow1024 2) = s2j "3.0 MB" /\ formatBytesShort (3 * pow1024 2) = s2j "3.0 MB".
Proof.
  destruct (size_format_units 3 2 ltac:(lra) ltac:(lra) ltac:(lia)) as [Ha Hb].
  rewrite Ha, Hb. split; vm_compute; reflexivity.
Defined.

(** C4, counterexample: 0.5 KB is rendered in bytes ("512 B") by both
    formatters, 2 TB is rendered "2048.0 GB" by [formatBytesShort], 1.5 KB is
    rendered with one decimal ("1.5 KB") by [formatBytes], and 1.5 B is not
    rounded to whole bytes by [formatBytesShort]. *)
Lemma size_format_units_counterexample :
  option_map formatBytes (parseSizeToBytes (s2j "0.5KB")) = Some (s2j "512 B")
  /\ option_map formatBytesShort (parseSizeToBytes (s2j "0.5KB")) = Some (s2j "512 B")
  /\ option_map formatBytesShort (parseSizeToBytes (s2j "2TB")) = Some (s2j "2048.0 GB")
  /\ option_map formatBytes (parseSizeToBytes (s2j "1.5KB")) = Some (s2j "1.5 KB")
  /\ option_map formatBytesShort (parseSizeToBytes (s2j "1.5B")) = Some (s2j "1.5 B").
Proof. vm_compute. repeat split. Qed.

(** ** Parsing sizes *)

Lemma span_app (p : Z -> bool) (a b : jstr) :
  forallb p a = true -> span p (a ++ b) = (a ++ fst (span p b), snd (span p b)).
Proof.
  induction a as [|c t IH]; intros H; simpl.
  - destruct (span p b); reflexivity.
  - simpl in H. apply andb_prop in H as [Hc Ht]. rewrite Hc, (IH Ht). reflexivity.
Qed.

Lemma span_stop (p : Z -> bool) (c : Z) (t : jstr) :
  p c = false -> span p (c :: t) = ([], c :: t).
Proof. intros H. simpl. rewrite H. reflexivity. Qed.

Lemma skipn_length_app (a b : jstr) : skipn (length a) (a ++ b) = b.
Proof. induction a as [|c t IH]; simpl; [reflexivity | exact IH]. Qed.

Lemma firstn_length_app (a b : jstr) : firstn (length (a ++ b) - length b) (a ++ b) = a.
Proof.
  rewrite length_app. replace (length a + length b - length b)%nat with (length a) by lia.
  rewrite firstn_app, firstn_all, Nat.sub_diag. simpl. apply app_nil_r.
Qed.

Lemma rep_counts_greedy (min n : nat) :
  (min <= n)%nat -> exists t, rep_counts min n true = n :: t.
Proof.
  intros H. unfold rep_counts. replace (S n - min)%nat with (S (n - min)) by lia.
  rewrite seq_S, rev_app_distr. simpl. exists (rev (seq min (n - min))).
  f_equal. lia.
Qed.

Lemma digits_val_app (a b : jstr) :
  digits_val (a ++ b) = digits_val a * 10 ^ Z.of_nat (length b) + digits_val b.
Proof.
  unfold digits_val. rewrite fold_left_app.
  generalize (fold_left (fun acc c => acc * 10 + digit_value c) a 0) as x.
  assert (G : forall y x, fold_left (fun acc c => acc * 10 + digit_value c) b x
                          = x * 10 ^ Z.of_nat (length b)
                            + fold_left (fun acc c => acc * 10 + digit_value c) b y
                            - y * 10 ^ Z.of_nat (length b)).
  { induction b as [|c t IH]; intros y x; cbn [fold_left]; [simpl; lia|].
    rewrite (IH (y * 10 + digit_value c)), (IH (x * 10 + digit_value c)).
    change (length (c :: t)) with (S (length t)).
    rewrite Nat2Z.inj_succ, Z.pow_succ_r by lia. ring. }
  intros x. rewrite (G 0 x). ring.
Qed.

Ltac char_props H :=
  unfold is_space, is_num_char, is_word, is_alpha, is_digit in H;
  repeat rewrite orb_true_iff in H; repeat rewrite andb_true_iff in H;
  rewrite ?Z.leb_le, ?Z.eqb_eq in H.

Lemma space_not_num (x : Z) : is_space x = true -> is_num_char x = false.
Proof.
  intros H. destruct (is_num_char x) eqn:E; [|reflexivity].
  char_props H. char_props E. exfalso. lia.
Qed.

Lemma word_not_num_space (x : Z) :
  is_word x = true -> is_digit x = false -> is_num_char x = false /\ is_space x = false.
Proof.
  intros H Hd. apply not_true_iff_false in Hd.
  assert (Hd' : ~ ((48 <= x) /\ (x <= 57))).
  { intros [Ha Hb]. apply Hd. unfold is_digit. apply andb_true_iff. split; apply Z.leb_le; lia. }
  split.
  - destruct (is_num_char x) eqn:E; [|reflexivity]. char_props H. char_props E. exfalso. lia.
  - destruct (is_space x) eqn:E; [|reflexivity]. char_props H. char_props E. exfalso. lia.
Qed.

Lemma span_all (p : Z -> bool) (a : jstr) : forallb p a = true -> span p a = (a, []).
Proof.
  induction a as [|c t IH]; intros H; [reflexivity|].
  simpl in H. apply andb_prop in H as [Hc Ht]. simpl. rewrite Hc, (IH Ht). reflexivity.
Qed.

Lemma size_regex_match (num ws u : jstr) :
  forallb is_num_char num = true -> num <> [] ->
  forallb is_space ws = true -> forallb is_word u = true ->
  match u with c :: _ => negb (is_digit c) | [] => false end = true ->
  match_at SIZE_REGEX (num ++ ws ++ u) = Some ([], [(2%nat, u); (1%nat, num)]).
Proof.
  intros Hn Hn0 Hws Hu Hc. destruct u as [|c u']; [discriminate|].
  apply negb_true_iff in Hc.
  assert (Hcw : is_word c = true) by (simpl in Hu; apply andb_prop in Hu; apply Hu).
  destruct (word_not_num_space c Hcw Hc) as [Hcn Hcs].
  assert (Hs1 : span is_num_char (num ++ ws ++ c :: u') = (num, ws ++ c :: u')).
  { rewrite (span_app _ _ _ Hn). destruct ws as [|w ws'].
    - simpl. rewrite Hcn. rewrite app_nil_r. reflexivity.
    - simpl in Hws. apply andb_prop in Hws as [Hw _]. simpl. rewrite (space_not_num w Hw).
      rewrite app_nil_r. reflexivity. }
  assert (Hs2 : span is_space (ws ++ c :: u') = (ws, c :: u')).
  { rewrite (span_app _ _ _ Hws). simpl. rewrite Hcs. rewrite app_nil_r. reflexivity. }
  assert (Hs3 : span is_word (c :: u') = (c :: u', [])) by (apply span_all; exact Hu).
  unfold match_at, SIZE_REGEX. cbn [bt].
  rewrite Hs1. cbn [fst].
  destruct (rep_counts_greedy 1 (length num)) as [t1 Ht1];
    [destruct num; [contradiction | simpl; lia]|].
  rewrite Ht1. cbn [first_some]. rewrite skipn_length_app, Hs2. cbn [fst].
  destruct (rep_counts_greedy 0 (length ws)) as [t2 Ht2]; [lia|].
  rewrite Ht2. cbn [first_some]. rewrite skipn_length_app, Hs3. cbn [fst].
  destruct (rep_counts_greedy 1 (length (c :: u'))) as [t3 Ht3]; [simpl; lia|].
  rewrite Ht3. cbn [first_some].
  rewrite skipn_all. rewrite firstn_length_app.
  replace (length (c :: u') - length (@nil Z))%nat with (length (c :: u')) by (simpl; lia).
  rewrite firstn_all. reflexivity.
Qed.

Lemma digits_num_chars (l : jstr) : forallb is_digit l = true -> forallb is_num_char l = true.
Proof.
  induction l as [|c t IH]; intros H; [reflexivity|]. simpl in *.
  apply andb_prop in H as [Hc Ht]. rewrite (IH Ht). unfold is_num_char. rewrite Hc. reflexivity.
Qed.

Lemma num_token_chars (d1 : jstr) (frac : option jstr) :
  forallb is_digit (d1 ++ frac_digits frac) = true -> forallb is_num_char (num_token d1 frac) = true.
Proof.
  intros H. rewrite forallb_app in H. apply andb_prop in H as [H1 H2].
  unfold num_token. rewrite forallb_app, (digits_num_chars d1 H1). simpl.
  destruct frac as [d2|]; [|reflexivity]. simpl in *. apply (digits_num_chars d2 H2).
Qed.

Lemma parseFloat_token (d1 : jstr) (frac : option jstr) :
  forallb is_digit (d1 ++ frac_digits frac) = true -> d1 ++ frac_digits frac <> [] ->
  exists q, parseFloat (num_token d1 frac) = Some q
            /\ (q == decimal_value d1 (frac_digits frac))%Q.
Proof.
  intros H Hne. rewrite forallb_app in H. apply andb_prop in H as [H1 H2].
  unfold parseFloat, num_token, decimal_value. destruct frac as [d2|]; simpl in *.
  - rewrite (span_app _ _ _ H1). simpl. rewrite app_nil_r, (span_all _ _ H2). simpl.
    eexists; split.
    + destruct d1, d2; [contradiction | reflexivity | reflexivity | reflexivity].
    + unfold Qeq, Qplus, inject_Z. simpl. rewrite digits_val_app.
      rewrite Z2Pos.id by (apply Z.pow_pos_nonneg; lia). ring.
  - rewrite app_nil_r in *. rewrite (span_all _ _ H1).
    eexists; split; [destruct d1; [contradiction | reflexivity]|].
    unfold Qeq, inject_Z. simpl. ring.
Qed.

Lemma multiplier_factor (u : jstr) : (multiplier (upper u) == unit_factor u)%Q.
Proof.
  unfold multiplier, unit_factor, SIZE_UNITS. cbn [index_of].
  destruct (jstr_eqb (upper u) (s2j "B")); [reflexivity|].
  destruct (jstr_eqb (upper u) (s2j "KB")); [unfold KiB; simpl; ring|].
  destruct (jstr_eqb (upper u) (s2j "MB")); [unfold MiB; simpl; ring|].
  destruct (jstr_eqb (upper u) (s2j "GB")); [unfold GiB; simpl; ring|].
  destruct (jstr_eqb (upper u) (s2j "TB")); [unfold TiB; simpl; ring | reflexivity].
Qed.

(** C3, the part the code meets: a string without a match of [([\d.]+)\s*(\w+)] parses to 0;
    a string [<n><ws><u>] made of a decimal literal [n] (digits, optionally a
    point and digits, with at least one digit), whitespace, and a word [u]
    that does not start with a digit parses to the value of [n] times the
    case-insensitive factor of [u] (1, 1024, ..., 1024^4 for B, KB, MB, GB,
    TB, and 1 for any other word). *)
Theorem parseSizeToBytes_token :
  (forall s, search SIZE_REGEX s = None -> parseSizeToBytes s = Some 0%Q)
  /\ (forall (d1 : jstr) (frac : option jstr) (ws u : jstr),
        forallb is_digit (d1 ++ frac_digits frac) = true -> d1 ++ frac_digits frac <> [] ->
        forallb is_space ws = true -> forallb is_word u = true ->
        match u with c :: _ => negb (is_digit c) | [] => false end = true ->
        exists q, parseSizeToBytes (num_token d1 frac ++ ws ++ u) = Some q
                  /\ (q == decimal_value d1 (frac_digits frac) * unit_factor u)%Q).
Proof.
  split.
  - intros s H. unfold parseSizeToBytes. rewrite H. destruct s; reflexivity.
  - intros d1 frac ws u Hd Hne Hws Hu Hc.
    assert (Hn0 : num_token d1 frac <> []).
    { unfold num_token. destruct d1; [|discriminate]. destruct frac; [discriminate|contradiction]. }
    pose proof (size_regex_match (num_token d1 frac) ws u (num_token_chars d1 frac Hd) Hn0 Hws Hu Hc)
      as Hm.
    destruct (parseFloat_token d1 frac Hd Hne) as [q [Hq Hqe]].
    unfold parseSizeToBytes.
    destruct (num_token d1 frac ++ ws ++ u) as [|x s'] eqn:E;
      [destruct (num_token d1 frac); [contradiction | discriminate]|].
    assert (Hs : search SIZE_REGEX (x :: s') = Some ([], [(2%nat, u); (1%nat, num_token d1 frac)]))
      by (change (search SIZE_REGEX (x :: s'))
            with (match match_at SIZE_REGEX (x :: s') with
                  | Some m => Some m | None => search SIZE_REGEX s' end);
          rewrite Hm; reflexivity).
    rewrite Hs. unfold cap. simpl. rewrite Hq. eexists; split; [reflexivity|].
    rewrite Hqe, multiplier_factor. reflexivity.
Qed.

Lemma parseSizeToBytes_token_witness :
  exists q, parseSizeToBytes (num_token (s2j "1") (Some (s2j "5")) ++ s2j " " ++ s2j "Gb") = Some q
            /\ (q == decimal_value (s2j "1") (s2j "5") * unit_factor (s2j "Gb"))%Q.
Proof.
  apply (proj2 parseSizeToBytes_token (s2j "1") (Some (s2j "5")) (s2j " ") (s2j "Gb"));
    vm_compute; first [reflexivity | discriminate].
Defined.

(** C3, failing inputs: the size string ".GB", which holds no number, matches
    [([\d.]+)\s*(\w+)] because [[\d.]+] accepts a lone point, and parses to
    [NaN] instead of 0; the string "120", which has no unit, parses to 12
    instead of 0, since [\w+] also matches digits and backtracking leaves the
    last digit "0" as the unit. *)
Lemma parseSizeToBytes_token_counterexample :
  parseSizeToBytes (s2j ".GB") = None
  /\ (exists q, parseSizeToBytes (s2j "120") = Some q /\ (q == 12)%Q).
Proof.
  split; [vm_compute; reflexivity|].
  eexists; split; [vm_compute; reflexivity | reflexivity].
Qed.

(** ** The streaming reader *)

Lemma split_go_nonempty (sep : Z) (acc s : jstr) : split_go sep acc s <> [].
Proof.
  revert acc. induction s as [|c t IH]; intros acc; simpl; [discriminate|].
  destruct (c =? sep); [discriminate | apply IH].
Qed.

Lemma removelast_cons_nonempty (x : jstr) (l : list jstr) :
  l <> [] -> removelast (x :: l) = x :: removelast l.
Proof. destruct l; [contradiction | reflexivity]. Qed.

Lemma last_cons_nonempty (x : jstr) (l : list jstr) :
  l <> [] -> last (x :: l) [] = last l [].
Proof. destruct l; [contradiction | reflexivity]. Qed.

Lemma split_go_app (sep : Z) (a b acc : jstr) :
  split_go sep acc (a ++ b)
  = removelast (split_go sep acc a) ++ split_go sep (last (split_go sep acc a) []) b.
Proof.
  revert acc. induction a as [|c t IH]; intros acc; [reflexivity|].
  simpl. destruct (c =? sep); [|apply IH].
  rewrite IH, removelast_cons_nonempty, last_cons_nonempty
    by apply split_go_nonempty.
  reflexivity.
Qed.

Lemma split_go_free (sep : Z) (s acc : jstr) :
  ~ In sep acc -> Forall (fun x => ~ In sep x) (split_go sep acc s).
Proof.
  revert acc. induction s as [|c t IH]; intros acc H; simpl; [constructor; [exact H | constructor]|].
  destruct (c =? sep) eqn:E.
  - constructor; [exact H | apply IH; intros []].
  - apply IH. intros Hin. apply in_app_or in Hin as [Hin|[Hc|[]]]; [contradiction|].
    subst c. rewrite Z.eqb_refl in E. discriminate.
Qed.

Lemma split_go_single (sep : Z) (a acc : jstr) : ~ In sep a -> split_go sep acc a = [acc ++ a].
Proof.
  revert acc. induction a as [|c t IH]; intros acc H; simpl; [rewrite app_nil_r; reflexivity|].
  destruct (c =? sep) eqn:E.
  - exfalso. apply H. left. apply Z.eqb_eq in E. exact E.
  - rewrite IH by (intros Hin; apply H; right; exact Hin). rewrite <- app_assoc. reflexivity.
Qed.

Lemma pop_nonempty (l : list jstr) : l <> [] -> pop l = (Some (last l []), removelast l).
Proof.
  intros H. unfold pop. rewrite (app_removelast_last [] H) at 1.
  rewrite rev_app_distr. simpl. rewrite rev_involutive. reflexivity.
Qed.

Lemma last_in (l : list jstr) : l <> [] -> In (last l []) l.
Proof.
  intros H. rewrite (app_removelast_last [] H) at 2. apply in_or_app. right. left. reflexivity.
Qed.

Lemma stream_data_inv (cs : list jstr) (st : stream_state) (X : jstr) :
  split_on NL X = delivered st ++ [buffer st] ->
  let st' := fold_left stream_step (map PData cs) st in
  split_on NL (X ++ concat cs) = delivered st' ++ [buffer st'] /\ resolved st' = resolved st.
Proof.
  revert st X. induction cs as [|c t IH]; intros st X H; simpl.
  - rewrite app_nil_r. split; [exact H | reflexivity].
  - assert (Hfree : ~ In NL (buffer st)).
    { pose proof (split_go_free NL X [] (fun h => h)) as Hf. unfold split_on in H.
      rewrite H in Hf. apply Forall_app in Hf as [_ Hf]. inversion Hf. assumption. }
    assert (Hsplit : split_on NL (X ++ c) = delivered st ++ split_on NL (buffer st ++ c)).
    { unfold split_on in *. rewrite split_go_app, H.
      rewrite removelast_last, last_last.
      rewrite (split_go_app NL (buffer st) c []), (split_go_single NL (buffer st) [] Hfree).
      reflexivity. }
    rewrite app_assoc.
    destruct (IH (stream_step st (PData c)) (X ++ c)) as [H1 H2].
    + rewrite Hsplit. unfold stream_step.
      assert (Hne : split_on NL (buffer st ++ c) <> []) by apply split_go_nonempty.
      rewrite (pop_nonempty _ Hne). simpl.
      rewrite <- app_assoc. f_equal. apply app_removelast_last. exact Hne.
    + split; [exact H1 | transitivity (resolved (stream_step st (PData c))); [exact H2 | unfold stream_step; destruct (pop _); reflexivity]].
Qed.

(** C5 (amended): after the chunks [cs], the lines delivered are all the
    newline-terminated lines of [concat cs] in order and the buffer holds
    the text after the last newline; closing the process delivers that rest
    only when it is non-empty after [trim], then resolves. *)
Theorem stream_lines (cs : list jstr) :
  let ls := split_on NL (concat cs) in
  delivered (run_stream (map PData cs)) = removelast ls
  /\ buffer (run_stream (map PData cs)) = last ls []
  /\ resolved (run_stream (map PData cs)) = false
  /\ delivered (run_stream (map PData cs ++ [PClose])) = removelast ls ++ close_flush (last ls [])
  /\ resolved (run_stream (map PData cs ++ [PClose])) = true.
Proof.
  intros ls.
  destruct (stream_data_inv cs stream_init [] eq_refl) as [H1 H2]. simpl in H1, H2.
  fold (run_stream (map PData cs)) in H1, H2. fold ls in H1.
  assert (Hd : delivered (run_stream (map PData cs)) = removelast ls)
    by (rewrite H1, removelast_last; reflexivity).
  assert (Hb : buffer (run_stream (map PData cs)) = last ls [])
    by (rewrite H1, last_last; reflexivity).
  unfold run_stream at 3 4. rewrite fold_left_app. simpl.
  fold (run_stream (map PData cs)).
  rewrite Hd, Hb. repeat split; try assumption; try reflexivity.
  unfold run_stream. rewrite fold_left_app. reflexivity.
Qed.

(** C5, counterexample: the chunk "a\n  " followed by the close event
    delivers only "a"; the non-empty rest "  " is not flushed. *)
Lemma stream_lines_counterexample :
  delivered (run_stream [PData (s2j "a" ++ [NL] ++ s2j "  "); PClose]) = [s2j "a"]
  /\ buffer (run_stream [PData (s2j "a" ++ [NL] ++ s2j "  "); PClose]) = s2j "  ".
Proof. vm_compute. split; reflexivity. Qed.

(** ** Buffered invocation *)

(** C6 (amended): once the engine path is found, a resolved invocation
    returns its stdout; a rejected one returns its stdout when that stdout
    is non-empty after [trim], and otherwise throws
    "mo <args joined by spaces> failed: <detail>", the detail being the
    first non-empty of stderr and the error message, else [String(err)]; a
    failed path resolution is thrown unchanged. *)
Theorem execMo_outcome (env : engine_env) (cache : option jstr) (args : list jstr)
    (stdout stderr message : option jstr) (str out : jstr) :
  fst (execMo env cache args (ExecResolved out))
  = match fst (fst (getMoPath env cache)) with inl _ => inl out | inr e => inr e end
  /\ fst (execMo env cache args (ExecRejected stdout stderr message str))
     = match fst (fst (getMoPath env cache)) with
       | inr e => inr e
       | inl _ =>
           let failure := s2j "mo " ++ join (s2j " ") args ++ s2j " failed: "
                          ++ first_nonempty stderr message str in
           match stdout with
           | Some o => match trim o with [] => inr failure | _ => inl o end
           | None => inr failure
           end
       end.
Proof.
  unfold execMo. destruct (getMoPath env cache) as [[[p|e] c'] ps]; simpl; [|split; reflexivity].
  split; [reflexivity|].
  assert (Hf : execMo_failure args stderr message str
               = s2j "mo " ++ join (s2j " ") args ++ s2j " failed: "
                 ++ first_nonempty stderr message str).
  { unfold execMo_failure, first_nonempty, truthy.
    destruct stderr as [[|? ?]|]; destruct message as [[|? ?]|]; reflexivity. }
  rewrite Hf. destruct stdout as [[|x o]|]; simpl; [reflexivity| |reflexivity].
  destruct (trim (x :: o)); reflexivity.
Qed.

(** C6, counterexample: a rejected invocation whose stdout is the
    non-empty, whitespace-only " " throws instead of returning it. *)
Lemma execMo_outcome_counterexample :
  execMo_after_path [s2j "clean"]
    (ExecRejected (Some (s2j " ")) (Some []) (Some (s2j "Command failed")) (s2j "Error"))
  = inr (s2j "mo clean failed: Command failed").
Proof. vm_compute. reflexivity. Qed.

(** ** Engine path resolution *)

Lemma first_existing_find (env : engine_env) (l : list jstr) :
  fst (first_existing env l) = find (path_exists env) l.
Proof.
  induction l as [|c t IH]; [reflexivity|]. simpl.
  destruct (path_exists env c); [reflexivity|].
  destruct (first_existing env t) as [r ps]. exact IH.
Qed.

Lemma search_paths_nonempty (env : engine_env) (c : jstr) :
  In c (MO_SEARCH_PATHS env) -> c <> [].
Proof.
  simpl. intros [<-|[<-|[<-|[<-|[]]]]]; try discriminate.
  destruct (env_home env); discriminate.
Qed.

(** C7 (amended): a cached non-empty path is returned with no lookup; without
    one, [getMoPath] first tries [which mo] (the lookup made first) and only
    then the well-known locations in order, returns the first success, or the
    not-installed error when both fail; a success is cached, so the next call
    returns it with no lookup, and a failure leaves the cache unchanged. *)
Theorem getMoPath_resolution :
  (forall env p, p <> [] -> getMoPath env (Some p) = (inl p, Some p, []))
  /\ (forall env cache, truthy cache = None ->
        fst (fst (getMoPath env cache))
        = match which_result env with
          | Some r => inl r
          | None => match find (path_exists env) (MO_SEARCH_PATHS env) with
                    | Some c => inl c
                    | None => inr NOT_INSTALLED
                    end
          end
        /\ hd_error (snd (getMoPath env cache)) = Some PWhich
        /\ (forall p, fst (fst (getMoPath env cache)) = inl p ->
              snd (fst (getMoPath env cache)) = Some p
              /\ forall env', getMoPath env' (Some p) = (inl p, Some p, []))
        /\ (forall e, fst (fst (getMoPath env cache)) = inr e -> snd (fst (getMoPath env cache)) = cache)).
Proof.
  assert (Hhit : forall env p, p <> [] -> getMoPath env (Some p) = (inl p, Some p, [])).
  { intros env p Hp. unfold getMoPath, truthy. destruct p; [contradiction | reflexivity]. }
  split; [exact Hhit|].
  intros env cache Hc. unfold getMoPath. rewrite Hc. unfold which_result.
  pose proof (first_existing_find env (MO_SEARCH_PATHS env)) as Hfe.
  assert (Hlist : forall ps,
    let res := match first_existing env (MO_SEARCH_PATHS env) with
               | (Some c, ps') => (inl c, Some c, ps ++ ps')
               | (None, ps') => (inr NOT_INSTALLED, cache, ps ++ ps')
               end in
    hd_error ps = Some PWhich ->
    fst (fst res) = match find (path_exists env) (MO_SEARCH_PATHS env) with
                    | Some c => inl c | None => inr NOT_INSTALLED end
    /\ hd_error (snd res) = Some PWhich
    /\ (forall p, fst (fst res) = inl p -> snd (fst res) = Some p
                  /\ forall env', getMoPath env' (Some p) = (inl p, Some p, []))
    /\ (forall e, fst (fst res) = inr e -> snd (fst res) = cache)).
  { intros ps res Hps. subst res.
    destruct (first_existing env (MO_SEARCH_PATHS env)) as [[c|] ps'] eqn:E;
      cbn [fst] in Hfe; rewrite <- Hfe; simpl.
    - destruct ps as [|p0 ps0]; [discriminate|]. simpl in Hps |- *.
      split; [reflexivity|]. split; [exact Hps|].
      split; [|intros e He; discriminate].
      intros p Hp. injection Hp as <-. split; [reflexivity|].
      intros env'. apply Hhit. apply (search_paths_nonempty env).
      symmetry in Hfe. apply find_some in Hfe as [Hin _]. exact Hin.
    - destruct ps as [|p0 ps0]; [discriminate|]. simpl in Hps |- *.
      split; [reflexivity|]. split; [exact Hps|].
      split; [intros p Hp; discriminate | intros e _; reflexivity]. }
  destruct (which_stdout env) as [out|]; [|apply (Hlist [PWhich]); reflexivity].
  destruct (trim out) as [|x r] eqn:Et; [apply (Hlist [PWhich]); reflexivity|].
  destruct (path_exists env (x :: r)) eqn:Ex;
    [|apply (Hlist [PWhich; PExists (x :: r)]); reflexivity].
  simpl. split; [reflexivity|]. split; [reflexivity|].
  split; [|intros e He; discriminate].
  intros p Hp. injection Hp as <-. split; [reflexivity|].
  intros env'. reflexivity.
Qed.

Lemma getMoPath_resolution_witness :
  fst (fst (getMoPath {| env_home := s2j "/Users/u"; which_stdout := None;
                         path_exists := fun p => jstr_eqb p (s2j "/opt/local/bin/mo") |} None))
  = inl (s2j "/opt/local/bin/mo")
  /\ getMoPath {| env_home := []; which_stdout := None; path_exists := fun _ => false |}
               (Some (s2j "/x"))
     = (inl (s2j "/x"), Some (s2j "/x"), []).
Proof.
  split.
  - rewrite (proj1 (proj2 getMoPath_resolution
        {| env_home := s2j "/Users/u"; which_stdout := None;
           path_exists := fun p => jstr_eqb p (s2j "/opt/local/bin/mo") |} None eq_refl)).
    vm_compute. reflexivity.
  - apply (proj1 getMoPath_resolution). discriminate.
Defined.

(** C7, counterexample: when [which mo] prints an existing path and the
    first well-known location /usr/local/bin/mo exists too, [getMoPath]
    returns the [which] result, and its first lookup is [which]. *)
Lemma getMoPath_resolution_counterexample :
  let env := {| env_home := s2j "/Users/u";
                which_stdout := Some (s2j "/opt/homebrew/bin/mo" ++ [NL]);
                path_exists := fun _ => true |} in
  hd_error (MO_SEARCH_PATHS env) = Some (s2j "/usr/local/bin/mo")
  /\ path_exists env (s2j "/usr/local/bin/mo") = true
  /\ getMoPath env None
     = (inl (s2j "/opt/homebrew/bin/mo"), Some (s2j "/opt/homebrew/bin/mo"),
        [PWhich; PExists (s2j "/opt/homebrew/bin/mo")]).
Proof. vm_compute. repeat split. Qed.

(** ** ANSI stripping *)

Lemma replace_go_skip (r : re) (x y : jstr) : replace_go r (x ++ y) (length x) = replace_go r y 0.
Proof. induction x as [|c t IH]; [reflexivity | exact IH]. Qed.

Lemma alpha_not_param (f : Z) : is_alpha f = true -> is_csi_param f = false.
Proof.
  intros H. destruct (is_csi_param f) eqn:E; [|reflexivity].
  unfold is_csi_param in E. char_props H. char_props E. exfalso. lia.
Qed.

Lemma csi_match (ps : jstr) (f : Z) (rest : jstr) :
  forallb is_csi_param ps = true -> is_alpha f = true ->
  match_at ANSI_REGEX (ESC :: 91 :: ps ++ f :: rest) = Some (rest, []).
Proof.
  intros Hps Hf. unfold match_at, ANSI_REGEX, ch. cbn [bt].
  rewrite !Z.eqb_refl.
  rewrite (span_app _ _ _ Hps), (span_stop _ _ _ (alpha_not_param f Hf)). cbn [fst].
  rewrite app_nil_r.
  destruct (rep_counts_greedy 0 (length ps)) as [t Ht]; [lia|]. rewrite Ht. cbn [first_some].
  rewrite skipn_length_app. rewrite Hf. reflexivity.
Qed.

Lemma first_some_seq {R : Type} (f : nat -> option R) (m a j : nat) (y : R) :
  (a <= j < a + m)%nat -> (forall i, (a <= i < j)%nat -> f i = None) -> f j = Some y ->
  first_some f (seq a m) = Some y.
Proof.
  revert a. induction m as [|m IH]; intros a Hj Hbelow Hfj; [lia|].
  simpl. destruct (Nat.eq_dec a j) as [<-|Hne]; [rewrite Hfj; reflexivity|].
  rewrite (Hbelow a) by lia. apply IH; [lia | |exact Hfj].
  intros i Hi. apply Hbelow. lia.
Qed.

Lemma skipn_inside (b z : jstr) (i : nat) :
  (i < length b)%nat -> exists c t, skipn i (b ++ z) = c :: t /\ In c b.
Proof.
  revert i. induction b as [|x b IH]; intros i Hi; simpl in Hi; [lia|].
  destruct i as [|i].
  - exists x, (b ++ z). split; [reflexivity | left; reflexivity].
  - destruct (IH i ltac:(lia)) as [c [t [Ht Hc]]]. exists c, t.
    split; [exact Ht | right; exact Hc].
Qed.

Lemma osc_match (b rest : jstr) :
  forallb (fun c => negb (c =? BEL) && negb (is_line_term c)) b = true ->
  match_at ANSI_REGEX (ESC :: 93 :: b ++ BEL :: rest) = Some (rest, []).
Proof.
  intros Hb. unfold match_at, ANSI_REGEX, ch. cbn [bt].
  rewrite !Z.eqb_refl. replace (91 =? 93) with false by reflexivity.
  assert (Hnl : forallb (fun c => negb (is_line_term c)) b = true).
  { apply forallb_forall. intros c Hc. apply (proj1 (forallb_forall _ b) Hb) in Hc.
    apply andb_prop in Hc. apply Hc. }
  rewrite (span_app _ _ _ Hnl). cbn [fst length].
  unfold rep_counts. rewrite Nat.sub_0_r.
  apply (first_some_seq _ _ 0 (length b)).
  - rewrite length_app. simpl. lia.
  - intros i Hi. destruct (skipn_inside b (BEL :: rest) i ltac:(lia)) as [c [t [Ht Hc]]].
    rewrite Ht. apply (proj1 (forallb_forall _ b) Hb) in Hc.
    apply andb_prop in Hc as [Hc _]. apply negb_true_iff in Hc.
    rewrite Z.eqb_sym, Hc. reflexivity.
  - rewrite skipn_length_app, Z.eqb_refl. reflexivity.
Qed.

Lemma no_esc_no_match (c : Z) (t : jstr) : (c =? ESC) = false -> match_at ANSI_REGEX (c :: t) = None.
Proof.
  intros Hc. unfold match_at, ANSI_REGEX, ch. cbn [bt]. rewrite Z.eqb_sym, Hc. reflexivity.
Qed.

Lemma plain_pass (t rest : jstr) :
  forallb (fun c => negb (c =? ESC)) t = true ->
  replace_go ANSI_REGEX (t ++ rest) 0 = t ++ replace_go ANSI_REGEX rest 0.
Proof.
  induction t as [|c t IH]; intros H; [reflexivity|].
  simpl in H. apply andb_prop in H as [Hc Ht]. apply negb_true_iff in Hc.
  simpl app. cbn [replace_go]. rewrite (no_esc_no_match c _ Hc). rewrite (IH Ht). reflexivity.
Qed.

Lemma replace_go_match (r : re) (c : Z) (t rest : jstr) (cs : caps) :
  match_at r (c :: t ++ rest) = Some (rest, cs) ->
  replace_go r (c :: t ++ rest) 0 = replace_go r rest 0.
Proof.
  intros H.
  change (replace_go r (c :: t ++ rest) 0)
    with (match match_at r (c :: t ++ rest) with
          | Some (rest', _) =>
              match (length (c :: t ++ rest) - length rest')%nat with
              | O => c :: replace_go r (t ++ rest) O
              | S n => replace_go r (t ++ rest) n
              end
          | None => c :: replace_go r (t ++ rest) O
          end).
  rewrite H.
  replace (length (c :: t ++ rest) - length rest)%nat with (S (length t))
    by (cbn [length]; rewrite length_app; lia).
  apply replace_go_skip.
Qed.

Lemma seg_pass (g : ansi_seg) (rest : jstr) :
  seg_ok g = true ->
  replace_go ANSI_REGEX (render_seg g ++ rest) 0 = plain_text g ++ replace_go ANSI_REGEX rest 0.
Proof.
  destruct g as [t|ps f|b]; cbn [render_seg plain_text seg_ok]; intros H.
  - apply plain_pass, H.
  - apply andb_prop in H as [Hps Hf].
    rewrite app_nil_l, <- app_comm_cons.
    apply (replace_go_match _ ESC (91 :: ps ++ [f]) rest []).
    rewrite <- app_comm_cons, <- app_assoc. apply (csi_match ps f rest Hps Hf).
  - rewrite app_nil_l, <- app_comm_cons.
    apply (replace_go_match _ ESC (93 :: b ++ [BEL]) rest []).
    rewrite <- app_comm_cons, <- app_assoc. apply (osc_match b rest H).
Qed.

(** C9 (amended): on a text made of plain runs without ESC, CSI sequences
    [ESC [ [0-9;]* letter] and OSC sequences [ESC ] body BEL] whose body has
    no BEL and no line terminator, [stripAnsi] removes exactly the CSI and
    OSC sequences, so the result holds no ESC. Other escape sequences
    are not covered. *)
Theorem stripAnsi_segments (segs : list ansi_seg) :
  forallb seg_ok segs = true ->
  stripAnsi (concat (map render_seg segs)) = concat (map plain_text segs)
  /\ ~ In ESC (stripAnsi (concat (map render_seg segs))).
Proof.
  intros H.
  assert (Heq : stripAnsi (concat (map render_seg segs)) = concat (map plain_text segs)).
  { unfold stripAnsi, replace_all. induction segs as [|g t IH]; [reflexivity|].
    simpl in H |- *. apply andb_prop in H as [Hg Ht].
    rewrite (seg_pass g _ Hg), (IH Ht). reflexivity. }
  split; [exact Heq|]. rewrite Heq. clear Heq.
  induction segs as [|g t IH]; [intros []|].
  simpl in H |- *. apply andb_prop in H as [Hg Ht]. intros Hin.
  apply in_app_or in Hin as [Hin|Hin]; [|exact (IH Ht Hin)].
  destruct g as [p|ps f|b]; simpl in Hin; [|contradiction|contradiction].
  simpl in Hg. apply (proj1 (forallb_forall _ p) Hg) in Hin.
  rewrite Z.eqb_refl in Hin. discriminate.
Qed.

Lemma stripAnsi_segments_witness :
  stripAnsi (concat (map render_seg [Plain (s2j "a"); Csi (s2j "1;31") 109; Plain (s2j "b");
                                      Osc (s2j "0;title")]))
  = s2j "ab".
Proof.
  rewrite (proj1 (stripAnsi_segments [Plain (s2j "a"); Csi (s2j "1;31") 109; Plain (s2j "b");
                                      Osc (s2j "0;title")] ltac:(vm_compute; reflexivity))).
  vm_compute. reflexivity.
Defined.

(** C9, counterexample: the escape sequence [ESC [ ? 25 l] (a CSI sequence
    with a private parameter) is left unchanged, and the nested input
    [ESC [ ESC [ 0 m m] becomes [ESC [ m]: both results hold an ESC. *)
Lemma stripAnsi_segments_counterexample :
  stripAnsi ([ESC; 91] ++ s2j "?25l") = [ESC; 91] ++ s2j "?25l"
  /\ stripAnsi ([ESC; 91; ESC; 91] ++ s2j "0mm") = [ESC; 91] ++ s2j "m".
Proof. vm_compute. split; reflexivity. Qed.

(** ** The purge target walker *)

Lemma walk_dir_eq (targets : jstr -> bool) (maxDepth : nat) (dir : list jstr)
    (n : jstr) (rd : bool) (ents : list fs_node) (d : nat) :
  walk targets maxDepth dir (FDir n rd ents) d
  = if (maxDepth <? d)%nat then ([], [])
    else if negb rd then ([], [dir])
    else let (r, v) := walk_loop targets maxDepth dir d ents in (r, dir :: v).
Proof. reflexivity. Qed.

Lemma walk_sound (targets : jstr -> bool) (maxDepth : nat) (node : fs_node) :
  forall dir d,
  (forall it, In it (fst (walk targets maxDepth dir node d)) ->
     target_below targets dir (item_path it))
  /\ (forall v, In v (snd (walk targets maxDepth dir node d)) -> clear_below targets dir v).
Proof.
  induction node as [n rd ents IH|n] using fs_node_ind'; intros dir d; [|split; intros ? []].
  rewrite walk_dir_eq.
  destruct (maxDepth <? d)%nat; [split; intros ? []|].
  destruct (negb rd).
  { split; [intros ? []|]. intros v [<-|[]]. exists []. split; [rewrite app_nil_r; reflexivity | intros ? []]. }
  assert (Hloop : forall es, Forall (fun t => forall dir d,
              (forall it, In it (fst (walk targets maxDepth dir t d)) ->
                 target_below targets dir (item_path it))
              /\ (forall v, In v (snd (walk targets maxDepth dir t d)) -> clear_below targets dir v)) es ->
            (forall it, In it (fst (walk_loop targets maxDepth dir d es)) ->
               target_below targets dir (item_path it))
            /\ (forall v, In v (snd (walk_loop targets maxDepth dir d es)) -> clear_below targets dir v)).
  { induction es as [|e es IHes]; intros Hf; [split; intros ? []|].
    inversion Hf as [|? ? He Hes]; subst. specialize (IHes Hes).
    destruct e as [name rd' sub|name]; cbn [walk_loop]; [|exact IHes].
    fold (walk_loop targets maxDepth dir d es).
    destruct (skipped targets name); [exact IHes|].
    destruct (targets name) eqn:Ht.
    - destruct (walk_loop targets maxDepth dir d es) as [r v] eqn:E. simpl in IHes |- *.
      split; [|exact (proj2 IHes)].
      intros it [<-|Hin]; [|exact (proj1 IHes it Hin)].
      exists [], name. simpl. split; [reflexivity|]. split; [exact Ht | intros ? []].
    - destruct (He (dir ++ [name]) (S d)) as [Hi Hv].
      destruct (walk targets maxDepth (dir ++ [name]) (FDir name rd' sub) (S d)) as [r1 v1].
      destruct (walk_loop targets maxDepth dir d es) as [r2 v2]. simpl in *.
      split.
      + intros it Hin. apply in_app_or in Hin as [Hin|Hin]; [|exact (proj1 IHes it Hin)].
        destruct (Hi it Hin) as [mid [t [Hp [Htt Hmid]]]].
        exists (name :: mid), t. split; [rewrite Hp, <- app_assoc; reflexivity|].
        split; [exact Htt|]. intros x [<-|Hx]; [exact Ht | exact (Hmid x Hx)].
      + intros v Hin. apply in_app_or in Hin as [Hin|Hin]; [|exact (proj2 IHes v Hin)].
        destruct (Hv v Hin) as [mid [Hp Hmid]].
        exists (name :: mid). split; [rewrite Hp, <- app_assoc; reflexivity|].
        intros x [<-|Hx]; [exact Ht | exact (Hmid x Hx)]. }
  destruct (Hloop ents IH) as [Hi Hv].
  destruct (walk_loop targets maxDepth dir d ents) as [r v]. simpl in *.
  split; [exact Hi|]. intros v' [<-|Hin]; [|exact (Hv v' Hin)].
  exists []. split; [rewrite app_nil_r; reflexivity | intros ? []].
Qed.

Lemma walk_loop_keeps (targets : jstr -> bool) (maxDepth : nat) (dir : list jstr) (d : nat)
    (e : fs_node) (es : list fs_node) (it : PurgeItem) :
  In it (fst (walk_loop targets maxDepth dir d es)) ->
  In it (fst (walk_loop targets maxDepth dir d (e :: es))).
Proof.
  intros H. destruct e as [name rd sub|name]; cbn [walk_loop]; [|exact H].
  fold (walk_loop targets maxDepth dir d es).
  destruct (skipped targets name); [exact H|].
  destruct (targets name).
  - destruct (walk_loop targets maxDepth dir d es) as [r v]. right. exact H.
  - destruct (walk _ _ _ _ _) as [r1 v1].
    destruct (walk_loop targets maxDepth dir d es) as [r2 v2]. simpl in *.
    apply in_or_app. right. exact H.
Qed.

Lemma walk_records_targets (targets : jstr -> bool) (maxDepth : nat) (dir : list jstr)
    (n : jstr) (ents : list fs_node) (d : nat) (name : jstr) (rd : bool) (sub : list fs_node) :
  (d <= maxDepth)%nat -> In (FDir name rd sub) ents -> targets name = true ->
  skipped targets name = false ->
  exists it, In it (fst (walk targets maxDepth dir (FDir n true ents) d))
             /\ item_path it = dir ++ [name].
Proof.
  intros Hd Hin Ht Hs. rewrite walk_dir_eq.
  replace (maxDepth <? d)%nat with false by (symmetry; apply Nat.ltb_ge; exact Hd). simpl.
  assert (H : exists it, In it (fst (walk_loop targets maxDepth dir d ents))
                         /\ item_path it = dir ++ [name]).
  { induction ents as [|e es IH]; [destruct Hin|].
    destruct Hin as [He|Hin].
    - subst e. cbn [walk_loop]. fold (walk_loop targets maxDepth dir d es). rewrite Hs, Ht.
      destruct (walk_loop targets maxDepth dir d es) as [r v].
      eexists; split; [left; reflexivity | reflexivity].
    - destruct (IH Hin) as [it [Hit Hp]]. exists it. split; [|exact Hp].
      apply walk_loop_keeps. exact Hit. }
  destruct (walk_loop targets maxDepth dir d ents) as [r v]. exact H.
Qed.

Lemma jstr_eqb_eq (a b : jstr) : jstr_eqb a b = true -> a = b.
Proof.
  revert b. induction a as [|c a IH]; intros [|d b] H; simpl in H; try discriminate; [reflexivity|].
  apply andb_prop in H as [Hc Hab]. apply Z.eqb_eq in Hc. subst d. f_equal. apply IH, Hab.
Qed.

Lemma target_not_skipped (name : jstr) : is_target name = true -> skipped is_target name = false.
Proof.
  intros H. unfold skipped. rewrite H. simpl.
  destruct (jstr_eqb name (s2j "Library")) eqn:E1;
    [apply jstr_eqb_eq in E1; subst name; discriminate|].
  destruct (jstr_eqb name (s2j "System")) eqn:E2;
    [apply jstr_eqb_eq in E2; subst name; discriminate|].
  rewrite andb_false_r. reflexivity.
Qed.

Lemma targets_not_nested (targets : jstr -> bool) (root p1 p2 x : list jstr) :
  target_below targets root p1 -> target_below targets root p2 -> p2 = p1 ++ x -> x = [].
Proof.
  intros [m1 [t1 [H1 [Ht1 _]]]] [m2 [t2 [H2 [_ Hm2]]]] Hx. subst p1 p2.
  rewrite <- !app_assoc in Hx. apply app_inv_head in Hx.
  induction x as [|y x' _] using rev_ind; [reflexivity|]. exfalso.
  rewrite (app_assoc [t1]), (app_assoc m1) in Hx. apply app_inj_tail in Hx as [Hm _].
  assert (Hin : In t1 m2) by (rewrite Hm; apply in_or_app; right; left; reflexivity).
  rewrite (Hm2 t1 Hin) in Ht1. discriminate.
Qed.

(** C8: for the walk run by [discoverPurgeTargets] (depth 1 to 4, the
    [targetNames] set) from any root, every reported path is a target
    directory reached through no other target directory, every directory read
    lies below no target directory (a target is never descended into), no
    reported path is nested inside another, every target-named subdirectory of
    a directory that is read is reported, and on the tree
    [project/node_modules/sub/node_modules] only the outer [node_modules] is
    reported while the inner one is never read. *)
Theorem purge_targets_not_nested (root : list jstr) (node : fs_node) :
  (forall it, In it (fst (findPurgeTargets root node)) ->
     target_below is_target root (item_path it))
  /\ (forall v, In v (snd (findPurgeTargets root node)) -> clear_below is_target root v)
  /\ (forall i1 i2 x, In i1 (fst (findPurgeTargets root node)) ->
        In i2 (fst (findPurgeTargets root node)) -> item_path i2 = item_path i1 ++ x -> x = [])
  /\ (forall dir n ents d name rd sub, (d <= 4)%nat -> In (FDir name rd sub) ents ->
        is_target name = true ->
        exists it, In it (fst (walk is_target 4 dir (FDir n true ents) d))
                   /\ item_path it = dir ++ [name])
  /\ findPurgeTargets [s2j "Users"; s2j "u"] nested_tree
     = ([{| item_name := s2j "node_modules";
            item_path := [s2j "Users"; s2j "u"; s2j "project"; s2j "node_modules"];
            project := s2j "project"; isLoadingSize := true |}],
        [[s2j "Users"; s2j "u"]; [s2j "Users"; s2j "u"; s2j "project"]]).
Proof.
  destruct (walk_sound is_target 4 node root 1) as [Hi Hv].
  unfold findPurgeTargets.
  split; [exact Hi|]. split; [exact Hv|]. split.
  - intros i1 i2 x H1 H2 Hx. exact (targets_not_nested is_target root _ _ x (Hi i1 H1) (Hi i2 H2) Hx).
  - split; [|vm_compute; reflexivity].
    intros dir n ents d name rd sub Hd Hin Ht.
    exact (walk_records_targets is_target 4 dir n ents d name rd sub Hd Hin Ht (target_not_skipped name Ht)).
Qed.

Lemma purge_targets_not_nested_witness :
  exists it, In it (fst (walk is_target 4 [s2j "Users"; s2j "u"] (FDir (s2j "u") true
                           [FDir (s2j "dist") true []]) 1))
             /\ item_path it = [s2j "Users"; s2j "u"] ++ [s2j "dist"].
Proof.
  apply (proj1 (proj2 (proj2 (proj2 (purge_targets_not_nested [] (FOther [])))))
           [s2j "Users"; s2j "u"] (s2j "u") [FDir (s2j "dist") true []] 1%nat (s2j "dist") true []).
  - lia.
  - left. reflexivity.
  - vm_compute. reflexivity.
Defined.

(** ** Further properties of the size helpers *)

(** X1: [formatBytesFromKB] shifts the unit by one: [v * 1024^k] kilobytes,
    with [1 <= v < 1024] and [k <= 3], render as [v] with one decimal in the
    unit of index [k + 1] (KB, MB, GB or TB). *)
Theorem formatBytesFromKB_units (v : Q) (k : nat) :
  (1 <= v)%Q -> (v < 1024)%Q -> (k <= 3)%nat ->
  formatBytesFromKB (v * pow1024 k) = toFixed v 1 ++ s2j " " ++ nth (S k) SIZE_UNITS [].
Proof.
  intros H1 H2 Hk. pose proof (pow1024_pos k) as Hp.
  unfold formatBytesFromKB, formatBytes.
  assert (Hpos : (1 <= v * pow1024 k)%Q)
    by (apply (Qle_trans _ (1 * 1)); [lra|]; apply Qmult_le_compat_nonneg; lra).
  rewrite (Qle_bool_false (v * pow1024 k * BYTES_PER_KB) 0) by (unfold BYTES_PER_KB; lra).
  destruct (formatBytes_loop (length SIZE_UNITS) (v * pow1024 k * BYTES_PER_KB) O)
    as [sz idx] eqn:E.
  destruct (formatBytes_loop_units (S k) v (v * pow1024 k * BYTES_PER_KB) O
              (length SIZE_UNITS) H1 H2 ltac:(simpl; unfold BYTES_PER_KB; ring)
              ltac:(lia) ltac:(simpl; lia)) as [Hs Hi].
  rewrite E in Hs, Hi. simpl in Hs, Hi. subst idx.
  rewrite (toFixed_proper sz v _ Hs). reflexivity.
Qed.

Lemma formatBytesFromKB_units_witness :
  formatBytesFromKB (3 * pow1024 1) = s2j "3.0 MB".
Proof.
  apply (formatBytesFromKB_units 3 1); [lra | lra | lia].
Defined.

Lemma formatBytes_loop_top (k : nat) : forall (size : Q) (i fuel : nat),
  (i + k = 4)%nat -> (k <= fuel)%nat -> (pow1024 k <= size)%Q ->
  (fst (formatBytes_loop fuel size i) == size / pow1024 k)%Q
  /\ snd (formatBytes_loop fuel size i) = 4%nat.
Proof.
  induction k as [|k IH]; intros size i fuel Hi Hf Hs.
  - replace i with 4%nat by lia. simpl pow1024.
    destruct fuel as [|fu]; simpl; [|rewrite andb_false_r]; cbn [fst snd];
      (split; [field | reflexivity]).
  - destruct fuel as [|fu]; [lia|]. simpl.
    pose proof (pow1024_pos k) as Hp. simpl in Hs.
    assert (Hge : Qle_bool BYTES_PER_KB size = true)
      by (apply Qle_bool_iff; unfold BYTES_PER_KB; lra).
    assert (Hlen : (i <? 4)%nat = true) by (apply Nat.ltb_lt; lia).
    rewrite Hge, Hlen. simpl.
    destruct (IH (size / BYTES_PER_KB)%Q (S i) fu ltac:(lia) ltac:(lia)) as [H1 H2].
    + unfold BYTES_PER_KB. apply Qle_shift_div_l; [lra|]. lra.
    + split; [|exact H2]. rewrite H1. unfold BYTES_PER_KB. field.
      intro Hc. lra.
Qed.

(** X2: [formatBytes] never goes past TB: a byte count of at least [1024^4]
    renders as its number of TB with one decimal, as long as that number is
    below [10^21] (from there on [toFixed] switches to exponent notation). *)
Theorem formatBytes_caps_at_TB (b : Q) :
  (pow1024 4 <= b)%Q -> (b / pow1024 4 < inject_Z (10 ^ 21))%Q ->
  formatBytes b = toFixed (b / pow1024 4) 1 ++ s2j " TB".
Proof.
  intros H _. pose proof (pow1024_pos 4) as Hp.
  unfold formatBytes. rewrite (Qle_bool_false b 0) by lra.
  destruct (formatBytes_loop (length SIZE_UNITS) b O) as [sz idx] eqn:E.
  destruct (formatBytes_loop_top 4 b O (length SIZE_UNITS) ltac:(lia) ltac:(simpl; lia) H)
    as [Hs Hi].
  rewrite E in Hs, Hi. simpl in Hs, Hi. subst idx.
  rewrite (toFixed_proper sz (b / pow1024 4) _ Hs). reflexivity.
Qed.

Lemma formatBytes_caps_at_TB_witness :
  (pow1024 4 <= 5000 * pow1024 4)%Q /\ (5000 * pow1024 4 / pow1024 4 < inject_Z (10 ^ 21))%Q
  /\ formatBytes (5000 * pow1024 4) = s2j "5000.0 TB".
Proof.
  split; [vm_compute; discriminate|]. split; [vm_compute; reflexivity|].
  rewrite (formatBytes_caps_at_TB (5000 * pow1024 4)) by (vm_compute; first [discriminate | reflexivity]).
  vm_compute. reflexivity.
Defined.

(** X3: [getSizeColor] is monotone in the parsed size: of two size strings
    that parse to numbers, the larger one never gets a colour lower on the
    scale SecondaryText, Green, Yellow, Orange, Red. *)
Theorem getSizeColor_monotone (s1 s2 : jstr) (b1 b2 : Q) :
  parseSizeToBytes s1 = Some b1 -> parseSizeToBytes s2 = Some b2 -> (b1 <= b2)%Q ->
  (color_rank (getSizeColor s1) <= color_rank (getSizeColor s2))%nat.
Proof.
  intros E1 E2 Hle. unfold getSizeColor. rewrite E1, E2.
  unfold GiB.
  assert (Hg : (b1 / (1024 * 1024 * 1024) <= b2 / (1024 * 1024 * 1024))%Q)
    by (apply Qmult_le_compat_r; [exact Hle | vm_compute; discriminate]).
  assert (e1 : (b1 == b1 / (1024 * 1024 * 1024) * 1073741824)%Q) by field.
  assert (e2 : (b2 == b2 / (1024 * 1024 * 1024) * 1073741824)%Q) by field.
  generalize dependent (b1 / (1024 * 1024 * 1024))%Q.
  generalize dependent (b2 / (1024 * 1024 * 1024))%Q. intros g2 B g1 A Hg.
  destruct (Qle_bool 2 g1) eqn:A1; destruct (Qle_bool (1 # 2) g1) eqn:A2;
  destruct (Qle_bool (1 # 10) g1) eqn:A3; destruct (Qle_bool b1 0) eqn:A4;
  destruct (Qle_bool 2 g2) eqn:B1; destruct (Qle_bool (1 # 2) g2) eqn:B2;
  destruct (Qle_bool (1 # 10) g2) eqn:B3;
  destruct (Qle_bool b2 0) eqn:B4;
  simpl; try lia;
  repeat match goal with
  | H : Qle_bool _ _ = true |- _ => apply Qle_bool_iff in H
  | H : Qle_bool ?x ?y = false |- _ =>
      assert ((y < x)%Q) by (apply Qnot_le_lt; intro Hc; apply Qle_bool_iff in Hc; congruence);
      clear H
  end; exfalso; lra.
Qed.

Lemma getSizeColor_monotone_witness :
  parseSizeToBytes (s2j "500 MB") = Some 524288000%Q
  /\ parseSizeToBytes (s2j "3 GB") = Some 3221225472%Q
  /\ (524288000 <= 3221225472)%Q
  /\ (color_rank (getSizeColor (s2j "500 MB")) <= color_rank (getSizeColor (s2j "3 GB")))%nat.
Proof.
  split; [vm_compute; reflexivity|]. split; [vm_compute; reflexivity|]. split; [lra|].
  apply (getSizeColor_monotone (s2j "500 MB") (s2j "3 GB") 524288000 3221225472);
    [vm_compute; reflexivity | vm_compute; reflexivity | lra].
Defined.

(** ** The directory scan *)

Section SortProofs.
Context {A : Type}.
Variable key : A -> Q.

Definition desc (a b : A) : Prop := (key b <= key a)%Q.
Definition by_key_desc (a b : A) : Q := (key b - key a)%Q.

Lemma sort_insert_perm (x : A) (l : list A) :
  Permutation (sort_insert by_key_desc x l) (x :: l).
Proof.
  induction l as [|y t IH]; simpl; [reflexivity|].
  destruct (Qlt_le_dec (by_key_desc x y) 0); [reflexivity|].
  rewrite IH. apply perm_swap.
Qed.

Lemma sort_by_perm (l : list A) : Permutation (sort_by by_key_desc l) l.
Proof.
  unfold sort_by.
  assert (G : forall acc, Permutation (fold_left (fun acc x => sort_insert by_key_desc x acc)
                                                 l acc) (l ++ acc)).
  { induction l as [|x l IH]; intros acc; simpl; [reflexivity|].
    rewrite IH, sort_insert_perm. symmetry. apply Permutation_middle. }
  rewrite G, app_nil_r. reflexivity.
Qed.

Lemma sort_insert_hd (x y : A) (l : list A) :
  HdRel desc y l -> desc y x -> HdRel desc y (sort_insert by_key_desc x l).
Proof.
  intros H Hx. destruct l as [|z t]; simpl; [constructor; exact Hx|].
  destruct (Qlt_le_dec (by_key_desc x z) 0); constructor; [exact Hx|].
  inversion H; assumption.
Qed.

Lemma sort_insert_sorted (x : A) (l : list A) :
  Sorted desc l -> Sorted desc (sort_insert by_key_desc x l).
Proof.
  induction l as [|y t IH]; intros Hs; simpl; [repeat constructor|].
  apply Sorted_inv in Hs as [Ht Hh].
  destruct (Qlt_le_dec (by_key_desc x y) 0) as [Hlt|Hge].
  - unfold by_key_desc in Hlt. constructor; [constructor; [exact Ht | exact Hh]|].
    constructor. unfold desc. lra.
  - unfold by_key_desc in Hge. constructor; [exact (IH Ht)|].
    apply sort_insert_hd; [exact Hh|]. unfold desc. lra.
Qed.

Lemma sort_by_sorted (l : list A) : Sorted desc (sort_by by_key_desc l).
Proof.
  unfold sort_by.
  assert (G : forall acc, Sorted desc acc ->
              Sorted desc (fold_left (fun acc x => sort_insert by_key_desc x acc) l acc)).
  { induction l as [|x l IH]; intros acc Hacc; simpl; [exact Hacc|].
    apply IH, sort_insert_sorted, Hacc. }
  apply G. constructor.
Qed.
End SortProofs.

(** X4: [scanDirectory] returns its entries sorted by size, largest first,
    and lists exactly the children whose [statSync] succeeded and whose size
    ([stat.size] for a file, the [du] figure for a directory) is positive,
    each as many times as it was read. *)
Theorem scanDirectory_sorted_positive (dirPath : list jstr) (cs : list (jstr * child_info)) :
  let r := scanDirectory dirPath (Some cs) in
  Sorted (fun a b => de_size b <= de_size a)%Q r
  /\ Permutation r (flat_map (fun c => match scan_child dirPath c with
                                       | Some e => if Qlt_le_dec 0 (de_size e) then [e] else []
                                       | None => []
                                       end) cs)
  /\ Forall (fun e => 0 < de_size e)%Q r.
Proof.
  simpl.
  set (F := fun r : option DirEntry => match r with
            | Some e => if Qlt_le_dec 0 (de_size e) then [e] else []
            | None => [] end).
  assert (Em : forall l, flat_map F (map (scan_child dirPath) l)
                         = flat_map (fun c => F (scan_child dirPath c)) l)
    by (induction l as [|c l IH]; simpl; [reflexivity | rewrite IH; reflexivity]).
  split; [apply (sort_by_sorted de_size)|].
  assert (P := sort_by_perm de_size (flat_map F (map (scan_child dirPath) cs))).
  rewrite Em in P. unfold by_key_desc in P. rewrite Em.
  split; [exact P|].
  apply Forall_forall. intros e He. apply (Permutation_in _ P), in_flat_map in He.
  destruct He as [c [_ Hc]]. unfold F in Hc.
  destruct (scan_child dirPath c) as [e'|]; [|destruct Hc].
  destruct (Qlt_le_dec 0 (de_size e')); [|destruct Hc].
  destruct Hc as [<-|[]]. assumption.
Qed.

Lemma split_go_sep (sep : Z) (acc d r : jstr) :
  ~ In sep d -> split_go sep acc (d ++ sep :: r) = (acc ++ d) :: split_go sep [] r.
Proof.
  revert acc. induction d as [|c t IH]; intros acc H; simpl.
  - rewrite Z.eqb_refl, app_nil_r. reflexivity.
  - destruct (c =? sep) eqn:E; [exfalso; apply H; left; apply Z.eqb_eq; exact E|].
    rewrite IH by (intros Hin; apply H; right; exact Hin). rewrite <- app_assoc. reflexivity.
Qed.

Lemma parseInt10_digits (d : jstr) :
  d <> [] -> forallb is_digit d = true -> parseInt10 d = Some (digits_val d).
Proof.
  intros Hne Hd. destruct d as [|c t]; [congruence|].
  simpl in Hd. apply andb_prop in Hd as [Hc Ht].
  assert (Hs : is_space c = false).
  { destruct (is_space c) eqn:E; [|reflexivity].
    apply space_not_num in E. unfold is_num_char in E. rewrite Hc in E. discriminate. }
  unfold parseInt10. simpl drop_while. rewrite Hs.
  assert (Hc' : c <> 45 /\ c <> 43)
    by (unfold is_digit in Hc; apply andb_prop in Hc as [H1 H2];
        apply Z.leb_le in H1; apply Z.leb_le in H2; lia).
  destruct Hc' as [N1 N2]. apply Z.eqb_neq in N1, N2. rewrite N1, N2.
  rewrite span_all by (simpl; rewrite Hc, Ht; reflexivity). simpl. f_equal.
  destruct (digits_val (c :: t)); reflexivity.
Qed.

(** X5: a directory is listed by [scanDirectory] only with the figure [du]
    printed: 1024 times the positive integer before the first tab of its
    output (a failed [du] or an output without a leading integer gives no
    entry). For [du]'s usual output [N<TAB>path] that integer is [N]. *)
Theorem scanDirectory_dir_sizes (dirPath : list jstr) (cs : list (jstr * child_info)) :
  (forall e, In e (scanDirectory dirPath (Some cs)) -> de_isDir e = true ->
   exists name out kb,
     In (name, ChildDir (Some out)) cs
     /\ parseInt10 (hd [] (split_on 9 out)) = Some kb /\ 0 < kb
     /\ de_path e = dirPath ++ [name] /\ (de_size e == inject_Z kb * 1024)%Q)
  /\ (forall d rest, d <> [] -> forallb is_digit d = true ->
      parseInt10 (hd [] (split_on 9 (d ++ 9 :: rest))) = Some (digits_val d)).
Proof.
  split.
  - intros e He Hdir. unfold scanDirectory in He.
    apply (Permutation_in _ (sort_by_perm de_size _)), in_flat_map in He.
    destruct He as [r [Hr He]]. apply in_map_iff in Hr as [[name info] [Hr Hin]].
    destruct r as [e'|]; [|destruct He].
    destruct (Qlt_le_dec 0 (de_size e')) as [Hpos|]; [|destruct He].
    destruct He as [<-|[]].
    destruct info as [|sz|[out|]]; simpl in Hr; inversion Hr; subst e'; simpl in *;
      try discriminate.
    + unfold du_bytes in Hpos. destruct (parseInt10 (hd [] (split_on 9 out))) as [kb|] eqn:Ek.
      * exists name, out, kb. split; [exact Hin|]. split; [exact Ek|].
        split; [|split; reflexivity].
        unfold BYTES_PER_KB in Hpos.
        rewrite (Zlt_Qlt 0 kb). change (inject_Z 0) with 0%Q. lra.
      * exfalso. lra.
  - intros d rest Hne Hd. unfold split_on.
    rewrite split_go_sep.
    + simpl. apply parseInt10_digits; assumption.
    + intros Hin. assert (X := proj1 (forallb_forall _ _) Hd 9 Hin). discriminate.
Qed.

Lemma scanDirectory_dir_sizes_witness :
  s2j "12" <> [] /\ forallb is_digit (s2j "12") = true
  /\ parseInt10 (hd [] (split_on 9 (s2j "12" ++ 9 :: s2j "/tmp/a"))) = Some 12.
Proof.
  split; [discriminate|]. split; [reflexivity|].
  apply (proj2 (scanDirectory_dir_sizes [] []) (s2j "12") (s2j "/tmp/a"));
    [discriminate | reflexivity].
Defined.

(** ** The clean list *)

Lemma drop_while_in (p : Z -> bool) (s : jstr) (c : Z) : In c (drop_while p s) -> In c s.
Proof.
  induction s as [|d t IH]; simpl; [tauto|].
  destruct (p d); [intros H; right; apply IH, H | tauto].
Qed.

Lemma trim_in (s : jstr) (c : Z) : In c (trim s) -> In c s.
Proof.
  unfold trim. intros H. apply in_rev in H. apply drop_while_in in H.
  apply in_rev in H. apply drop_while_in in H. exact H.
Qed.

Lemma clean_list_step_shift (tl : jstr -> jstr) (ex : jstr -> bool) (n : jstr)
    (b : bool) (P : list jstr) (line : jstr) :
  clean_list_step tl ex n (b, P) line
  = (fst (clean_list_step tl ex n (b, []) line), P ++ snd (clean_list_step tl ex n (b, []) line)).
Proof.
  unfold clean_list_step. cbn [fst snd].
  destruct (is_list_header (trim line)); [cbn [fst snd]; rewrite app_nil_r; reflexivity|].
  destruct b; cbn [negb fst snd]; [|rewrite app_nil_r; reflexivity].
  destruct (trim line) as [|c t]; [cbn [fst snd]; rewrite app_nil_r; reflexivity|].
  destruct (starts_with (s2j "#") (c :: t)); [cbn [fst snd]; rewrite app_nil_r; reflexivity|].
  destruct (trim (hd [] (split_on 35 (c :: t)))) as [|d u];
    [cbn [fst snd]; rewrite app_nil_r; reflexivity|].
  destruct (starts_with (s2j "/") (d :: u) && ex (d :: u)); cbn [fst snd];
    [reflexivity | rewrite app_nil_r; reflexivity].
Qed.

Lemma clean_list_fold_shift (tl : jstr -> jstr) (ex : jstr -> bool) (n : jstr)
    (lines : list jstr) : forall (b : bool) (P : list jstr),
  fold_left (clean_list_step tl ex n) lines (b, P)
  = (fst (fold_left (clean_list_step tl ex n) lines (b, [])),
     P ++ snd (fold_left (clean_list_step tl ex n) lines (b, []))).
Proof.
  induction lines as [|l t IH]; intros b P; cbn [fold_left];
    [cbn [fst snd]; rewrite app_nil_r; reflexivity|].
  rewrite clean_list_step_shift.
  rewrite (IH _ (P ++ _)).
  destruct (clean_list_step tl ex n (b, []) l) as [b1 P1]. cbn [fst snd].
  rewrite (IH b1 P1). cbn [fst snd]. rewrite app_assoc. reflexivity.
Qed.

(** X6: every path [getPathsForCategory] returns starts with ['/'], passed
    [existsSync], and holds no ['#'] (an inline [#] comment is cut off). *)
Theorem getPathsForCategory_paths_ok (tl : jstr -> jstr) (ex : jstr -> bool)
    (content : option jstr) (categoryName p : jstr) :
  In p (getPathsForCategory tl ex content categoryName) ->
  starts_with (s2j "/") p = true /\ ex p = true /\ ~ In 35 p.
Proof.
  destruct content as [c|]; simpl; [|tauto].
  unfold paths_of_lines.
  set (ok := fun p => starts_with (s2j "/") p = true /\ ex p = true /\ ~ In 35 p).
  assert (G : forall lines st, Forall ok (snd st) ->
              Forall ok (snd (fold_left (clean_list_step tl ex categoryName) lines st))).
  { induction lines as [|l t IH]; intros [b P] HP; cbn [fold_left]; [exact HP|].
    apply IH. cbn [snd] in HP. unfold clean_list_step.
    destruct (is_list_header (trim l)); [exact HP|].
    destruct (negb b); [exact HP|].
    destruct (trim l) as [|x y] eqn:Et; [exact HP|].
    destruct (starts_with (s2j "#") (x :: y)); [exact HP|].
    destruct (trim (hd [] (split_on 35 (x :: y)))) as [|d u] eqn:Ep; [exact HP|].
    destruct (starts_with (s2j "/") (d :: u)) eqn:Es; [|exact HP].
    destruct (ex (d :: u)) eqn:Ex; [|exact HP].
    cbn [snd andb]. apply Forall_app. split; [exact HP|]. constructor; [|constructor].
    split; [exact Es|]. split; [exact Ex|].
    rewrite <- Ep. intros Hin. apply trim_in in Hin.
    assert (F := split_go_free 35 (x :: y) [] ltac:(simpl; tauto)).
    unfold split_on in Hin. destruct (split_go 35 [] (x :: y)) as [|h r]; [exact Hin|].
    inversion F; subst. simpl in Hin. contradiction. }
  intros Hin. specialize (G (split_on NL c) (false, []) (Forall_nil _)).
  rewrite Forall_forall in G. exact (G p Hin).
Qed.

Lemma getPathsForCategory_paths_ok_witness :
  In (s2j "/tmp/x")
     (getPathsForCategory upper (fun _ => true)
        (Some (s2j "=== Cache ===" ++ [NL] ++ s2j "/tmp/x # note")) (s2j "cache"))
  /\ (starts_with (s2j "/") (s2j "/tmp/x") = true /\ true = true /\ ~ In 35 (s2j "/tmp/x")).
Proof.
  assert (H : In (s2j "/tmp/x")
     (getPathsForCategory upper (fun _ => true)
        (Some (s2j "=== Cache ===" ++ [NL] ++ s2j "/tmp/x # note")) (s2j "cache")))
    by (vm_compute; left; reflexivity).
  split; [exact H|].
  exact (getPathsForCategory_paths_ok upper (fun _ => true) _ _ _ H).
Defined.

Lemma clean_list_step_header (tl : jstr -> jstr) (ex : jstr -> bool) (n h : jstr)
    (st : bool * list jstr) :
  is_list_header (trim h) = true ->
  clean_list_step tl ex n st h
  = (jstr_eqb (tl (list_header_name (trim h))) (tl n), snd st).
Proof. intros H. destruct st as [b P]. unfold clean_list_step. rewrite H. reflexivity. Qed.

(** X7: the lines of the clean list before its first section header are
    never collected, and a header line ends the section before it: what the
    lines from a header on contribute does not depend on the lines before. *)
Theorem paths_of_lines_sections (tl : jstr -> jstr) (ex : jstr -> bool) (n : jstr)
    (A B : list jstr) (h : jstr) :
  (Forall (fun l => is_list_header (trim l) = false) A -> paths_of_lines tl ex n A = [])
  /\ (is_list_header (trim h) = true ->
      paths_of_lines tl ex n (A ++ h :: B)
      = paths_of_lines tl ex n A ++ paths_of_lines tl ex n (h :: B)).
Proof.
  split.
  - intros HA. unfold paths_of_lines.
    enough (E : fold_left (clean_list_step tl ex n) A (false, []) = (false, []))
      by (rewrite E; reflexivity).
    induction HA as [|l A' Hl _ IH]; [reflexivity|].
    cbn [fold_left]. unfold clean_list_step at 2. rewrite Hl. exact IH.
  - intros Hh. unfold paths_of_lines. rewrite fold_left_app.
    destruct (fold_left (clean_list_step tl ex n) A (false, [])) as [b P].
    rewrite clean_list_fold_shift. cbn [fst snd fold_left].
    rewrite !(clean_list_step_header tl ex n h) by exact Hh. reflexivity.
Qed.

Lemma paths_of_lines_sections_witness :
  (Forall (fun l => is_list_header (trim l) = false) [s2j "/a"]
   /\ paths_of_lines upper (fun _ => true) (s2j "x") [s2j "/a"] = [])
  /\ (is_list_header (trim (s2j "=== y ===")) = true
      /\ paths_of_lines upper (fun _ => true) (s2j "x")
           ([s2j "=== x ==="; s2j "/a"] ++ s2j "=== y ===" :: [s2j "/b"])
         = paths_of_lines upper (fun _ => true) (s2j "x") [s2j "=== x ==="; s2j "/a"]
           ++ paths_of_lines upper (fun _ => true) (s2j "x") (s2j "=== y ===" :: [s2j "/b"])).
Proof.
  split.
  - assert (H : Forall (fun l => is_list_header (trim l) = false) [s2j "/a"])
      by (constructor; [vm_compute; reflexivity | constructor]).
    split; [exact H|].
    exact (proj1 (paths_of_lines_sections upper (fun _ => true) (s2j "x") [s2j "/a"] []
                    (s2j "=== y ===")) H).
  - assert (H : is_list_header (trim (s2j "=== y ===")) = true) by (vm_compute; reflexivity).
    split; [exact H|].
    exact (proj2 (paths_of_lines_sections upper (fun _ => true) (s2j "x")
                    [s2j "=== x ==="; s2j "/a"] [s2j "/b"] (s2j "=== y ===")) H).
Defined.

(** ** Cleaning a category *)

Lemma collect_trash_in (st : jstr -> option bool) (rd : jstr -> option (list jstr))
    (pj : jstr -> jstr -> jstr) (paths : list jstr) (x : jstr) :
  In x (collect_trash st rd pj paths) ->
  (In x paths /\ st x = Some false)
  \/ (exists p items item, In p paths /\ st p = Some true /\ rd p = Some items
                           /\ In item items /\ x = pj p item).
Proof.
  unfold collect_trash. intros H. apply in_flat_map in H as [p [Hp Hx]]. cbv beta in Hx.
  destruct (st p) as [[|]|] eqn:Es; [|destruct Hx as [<-|[]]; left; tauto | destruct Hx].
  destruct (rd p) as [items|] eqn:Er; [|destruct Hx].
  apply in_map_iff in Hx as [item [<- Hi]]. right. exists p, items, item. tauto.
Qed.

(** X9: [cleanCategory] calls [trashPaths] only after the confirmation and
    never with an empty list, and it trashes only paths of the category's
    clean-list section that are not directories, and the entries of those
    that are: a listed directory itself is kept, unless it is an entry of
    another listed directory. *)
Theorem cleanCategory_trash (tl : jstr -> jstr) (ex : jstr -> bool) (cl : option jstr)
    (st : jstr -> option bool) (rd : jstr -> option (list jstr)) (pj : jstr -> jstr -> jstr)
    (te : option jstr) (confirmed : bool) (category : CleanCategory) (l : list jstr) :
  In (ETrash l) (fst (cleanCategory tl ex cl st rd pj te confirmed category)) ->
  confirmed = true /\ l <> []
  /\ forall x, In x l ->
     let paths := getPathsForCategory tl ex cl (name category) in
     (In x paths /\ st x = Some false)
     \/ (exists p items item, In p paths /\ st p = Some true /\ rd p = Some items
                              /\ In item items /\ x = pj p item).
Proof.
  unfold cleanCategory, confirmAndExecute.
  destruct confirmed; [|cbn; tauto]. cbn [negb].
  set (paths := getPathsForCategory tl ex cl (name category)).
  unfold cleanCategory_onConfirm.
  destruct (match paths with [] => [] | _ :: _ => collect_trash st rd pj paths end)
    as [|t0 ts] eqn:Et.
  - cbn. intros [H|[H|[]]]; discriminate.
  - assert (Hl : forall l', ETrash (t0 :: ts) = ETrash l' -> l' = t0 :: ts)
      by (intros l' E; inversion E; reflexivity).
    destruct te as [m|]; cbn [fst];
      (intros H; destruct H as [H|H];
       [|repeat (destruct H as [H|H]; [discriminate|]); destruct H]);
      apply Hl in H; subst l; (split; [reflexivity|]); (split; [discriminate|]);
      intros x Hx; cbn zeta; apply collect_trash_in;
      destruct paths as [|p0 ps]; (discriminate || (rewrite Et; exact Hx)).
Qed.

Lemma cleanCategory_trash_witness :
  let cat := {| name := s2j "Cache"; items := []; totalSize := [] |} in
  let cl := Some (s2j "=== Cache ===" ++ [NL] ++ s2j "/c" ++ [NL] ++ s2j "/f") in
  let st := fun p => if jstr_eqb p (s2j "/c") then Some true else Some false in
  let rd := fun _ : jstr => Some [s2j "a"] in
  let pj := fun p i => p ++ s2j "/" ++ i in
  In (ETrash [s2j "/c/a"; s2j "/f"])
     (fst (cleanCategory upper (fun _ => true) cl st rd pj None true cat))
  /\ true = true /\ [s2j "/c/a"; s2j "/f"] <> [].
Proof.
  intros cat cl st rd pj.
  assert (H : In (ETrash [s2j "/c/a"; s2j "/f"])
                 (fst (cleanCategory upper (fun _ => true) cl st rd pj None true cat)))
    by (vm_compute; left; reflexivity).
  split; [exact H|].
  destruct (cleanCategory_trash upper (fun _ => true) cl st rd pj None true cat _ H)
    as [H1 [H2 _]].
  split; [exact H1 | exact H2].
Defined.

(** ** The application scan *)

Lemma starts_with_app (pre s : jstr) : starts_with pre s = true -> exists r, s = pre ++ r.
Proof.
  revert s. induction pre as [|c p IH]; intros s H; [exists s; reflexivity|].
  destruct s as [|d t]; [discriminate|]. simpl in H. apply andb_prop in H as [Hc Ht].
  apply Z.eqb_eq in Hc. subst d. destruct (IH t Ht) as [r ->]. exists r. reflexivity.
Qed.

Lemma ends_with_app (suf s : jstr) : ends_with suf s = true -> exists x, s = x ++ suf.
Proof.
  unfold ends_with. intros H. apply starts_with_app in H as [r Hr].
  exists (rev r). rewrite <- (rev_involutive s), Hr, rev_app_distr, rev_involutive.
  reflexivity.
Qed.

Lemma app_suffix_match (s rest : jstr) (cs : caps) :
  match_at APP_SUFFIX s = Some (rest, cs) -> s = s2j ".app".
Proof.
  unfold match_at, APP_SUFFIX, rseq, lit. cbn -[Z.eqb].
  destruct s as [|a [|b [|c [|d t]]]];
    repeat match goal with
    | |- context [?x =? ?y] => let E := fresh "E" in destruct (x =? y) eqn:E
    end; try discriminate;
    destruct t; try discriminate.
  repeat match goal with H : (_ =? _) = true |- _ => apply Z.eqb_eq in H; subst end.
  reflexivity.
Qed.

Lemma replace_first_app (x : jstr) : replace_first APP_SUFFIX (x ++ s2j ".app") = x.
Proof.
  induction x as [|c x IH]; [vm_compute; reflexivity|].
  cbn [app replace_first].
  destruct (match_at APP_SUFFIX (c :: x ++ s2j ".app")) as [[rest cs]|] eqn:E.
  - apply app_suffix_match in E. apply (f_equal (@length Z)) in E.
    rewrite length_cons, length_app in E. simpl in E. lia.
  - rewrite IH. reflexivity.
Qed.

(** X10: [scanApplications] returns its apps sorted by size, largest first;
    each comes from an item [<name>.app] of an application directory that
    exists and can be read, is named [<name>], has the path of that item,
    and has a bundle id outside [PROTECTED_BUNDLE_IDS]. *)
Theorem scanApplications_ok (pj : jstr -> jstr -> jstr) (ex : jstr -> bool)
    (rd : jstr -> option (list jstr)) (dr du : jstr -> option jstr) (HOME : option jstr) :
  let apps := scanApplications pj ex rd dr du HOME in
  Sorted (fun a b => app_size b <= app_size a)%Q apps
  /\ forall a, In a apps ->
     exists appDir items item,
       In appDir (appDirs pj HOME) /\ ex appDir = true /\ rd appDir = Some items
       /\ In item items /\ item = app_name a ++ s2j ".app" /\ app_path a = pj appDir item
       /\ is_protected (bundleId a) = false.
Proof.
  cbv zeta. split; [apply (sort_by_sorted app_size)|].
  intros a Ha. unfold scanApplications in Ha.
  apply (Permutation_in _ (sort_by_perm app_size _)), in_flat_map in Ha.
  destruct Ha as [appDir [Hd Ha]]. unfold scan_app_dir in Ha.
  destruct (ex appDir) eqn:Ex; [|destruct Ha]. cbn [negb] in Ha.
  destruct (rd appDir) as [items|] eqn:Er; [|destruct Ha].
  apply in_flat_map in Ha as [item [Hi Ha]].
  destruct (scan_app pj ex dr du appDir item) as [a'|] eqn:Es; [|destruct Ha].
  destruct Ha as [<-|[]].
  exists appDir, items, item. do 4 (split; [assumption|]).
  unfold scan_app in Es.
  destruct (ends_with (s2j ".app") item) eqn:Ee; [|discriminate]. cbn [negb] in Es.
  destruct (is_protected _) eqn:Ep in Es; [discriminate|].
  injection Es as <-. cbn [app_name app_path bundleId].
  split; [|split; [reflexivity | exact Ep]].
  apply ends_with_app in Ee as [x ->]. rewrite replace_first_app. reflexivity.
Qed.

Lemma scanApplications_ok_witness :
  let pj := fun a b => a ++ s2j "/" ++ b in
  let rd := fun d => if jstr_eqb d (s2j "/Applications")
                     then Some [s2j "Foo.app"; s2j "notes.txt"] else None in
  let app := {| app_name := s2j "Foo"; app_path := s2j "/Applications/Foo.app";
                bundleId := s2j "com.foo"; app_size := (12 * 1024)%Q;
                icon := s2j "/Applications/Foo.app/Contents/Resources/AppIcon.icns" |} in
  In app (scanApplications pj (fun _ => true) rd (fun _ => Some (s2j "com.foo "))
                           (fun _ => Some (s2j "12" ++ [9] ++ s2j "/x")) None)
  /\ exists appDir items item,
       In appDir (appDirs pj None) /\ true = true /\ rd appDir = Some items
       /\ In item items /\ item = app_name app ++ s2j ".app"
       /\ app_path app = pj appDir item /\ is_protected (bundleId app) = false.
Proof.
  intros pj rd app.
  assert (H : In app (scanApplications pj (fun _ => true) rd (fun _ => Some (s2j "com.foo "))
                        (fun _ => Some (s2j "12" ++ [9] ++ s2j "/x")) None))
    by (vm_compute; left; reflexivity).
  split; [exact H|].
  exact (proj2 (scanApplications_ok pj (fun _ => true) rd _ _ None) app H).
Defined.

(** ** The roots of the purge scan *)

Lemma jstr_eqb_refl (a : jstr) : jstr_eqb a a = true.
Proof. induction a as [|c a IH]; simpl; [reflexivity|]. rewrite Z.eqb_refl. exact IH. Qed.

Lemma existsb_jstr_eqb_false (p : jstr) (l : list jstr) :
  existsb (jstr_eqb p) l = false -> ~ In p l.
Proof.
  intros H Hin. assert (E : existsb (jstr_eqb p) l = true)
    by (apply existsb_exists; exists p; split; [exact Hin | apply jstr_eqb_refl]).
  congruence.
Qed.

(** X11: the config file of [discoverPurgeTargets] only appends roots: the
    search paths are the existing default directories followed by custom
    paths, each of which exists, is not one of the defaults, and appears
    once. *)
Theorem searchPaths_custom (pj : jstr -> jstr -> jstr) (ex : jstr -> bool)
    (cfg HOME : option jstr) :
  exists customs,
    searchPaths pj ex cfg HOME = default_search_paths pj ex HOME ++ customs
    /\ NoDup customs
    /\ forall c, In c customs -> ex c = true /\ ~ In c (default_search_paths pj ex HOME).
Proof.
  set (D := default_search_paths pj ex HOME).
  assert (G : forall l cs, NoDup cs -> (forall c, In c cs -> ex c = true /\ ~ In c D) ->
              exists cs', fold_left (add_custom pj ex HOME) l (D ++ cs) = D ++ cs'
                          /\ NoDup cs' /\ forall c, In c cs' -> ex c = true /\ ~ In c D).
  { induction l as [|p0 l IH]; intros cs Hnd Hcs; cbn [fold_left]; [exists cs; tauto|].
    unfold add_custom at 2.
    set (p := if starts_with (s2j "~/") p0 then pj (home HOME) (skipn 2 p0) else p0).
    destruct (ex p && negb (existsb (jstr_eqb p) (D ++ cs))) eqn:E; [|apply IH; assumption].
    apply andb_prop in E as [Ex Hn]. apply negb_true_iff, existsb_jstr_eqb_false in Hn.
    rewrite <- app_assoc. apply IH.
    - apply (Permutation_NoDup (Permutation_cons_append cs p)). constructor; [|exact Hnd].
      intros Hin. apply Hn, in_or_app. right. exact Hin.
    - intros c Hc. apply in_app_or in Hc as [Hc|[<-|[]]]; [apply Hcs, Hc|].
      split; [exact Ex|]. intros Hin. apply Hn, in_or_app. left. exact Hin. }
  unfold searchPaths. fold D.
  assert (N : exists customs, D = D ++ customs /\ NoDup customs
                              /\ forall c, In c customs -> ex c = true /\ ~ In c D)
    by (exists []; rewrite app_nil_r; split; [reflexivity | split; [constructor | intros c []]]).
  destruct (ex (molePathsConfig pj HOME)); [|exact N].
  destruct cfg as [content|]; [|exact N].
  destruct (G (customPaths content) [] (NoDup_nil _) ltac:(intros c [])) as [cs' H'].
  rewrite app_nil_r in H'. exists cs'. exact H'.
Qed.

Lemma searchPaths_custom_witness :
  let pj := fun a b => a ++ s2j "/" ++ b in
  let ex := fun p => negb (jstr_eqb p (s2j "/u/www")) in
  let cfg := Some (s2j "~/src" ++ [NL] ++ s2j "# note" ++ [NL] ++ s2j "/u/dev") in
  searchPaths pj ex cfg (Some (s2j "/u"))
  = [s2j "/u/dev"; s2j "/u/Projects"; s2j "/u/GitHub"; s2j "/u/Code"; s2j "/u/Workspace";
     s2j "/u/Repos"; s2j "/u/Development"; s2j "/u/"; s2j "/u/src"]
  /\ exists customs,
       searchPaths pj ex cfg (Some (s2j "/u")) = default_search_paths pj ex (Some (s2j "/u")) ++ customs
       /\ NoDup customs
       /\ forall c, In c customs -> ex c = true /\ ~ In c (default_search_paths pj ex (Some (s2j "/u"))).
Proof.
  intros pj ex cfg. split; [vm_compute; reflexivity|].
  exact (searchPaths_custom pj ex cfg (Some (s2j "/u"))).
Defined.

(** ** The end state of a scan *)

Lemma commit_current_fields (s : clean_state) :
  currentScanId (commit_current s) = currentScanId s /\ error (commit_current s) = error s
  /\ summary (commit_current s) = summary s.
Proof. unfold commit_current. destruct (currentCategoryRef s); repeat split. Qed.

Lemma on_line_fields (n : nat) (l : jstr) (s : clean_state) :
  currentScanId s = n ->
  currentScanId (on_line n l s) = n /\ error (on_line n l s) = error s
  /\ summary (on_line n l s)
     = match classify_line l with LSummary sm => Some sm | _ => summary s end.
Proof.
  intros Hid. unfold on_line. rewrite Hid, Nat.eqb_refl. cbn [negb].
  destruct (classify_line l) as [|sm|nm|it dry|st|]; try (repeat split; exact Hid || reflexivity).
  - destruct (commit_current_fields s) as (E1 & E2 & E3). cbn. rewrite E1, E2, E3.
    repeat split. exact Hid.
  - destruct (currentCategoryRef s); cbn; repeat split; exact Hid.
  - destruct (currentCategoryRef s); cbn; repeat split; exact Hid.
Qed.

Lemma scan_lines_fields (n : nat) (lines : list jstr) : forall s,
  currentScanId s = n ->
  let s' := fold_left scan_step (map (ScanLine n) lines) s in
  currentScanId s' = n /\ error s' = error s
  /\ summary s' = fold_left (fun acc l => match classify_line l with
                                          | LSummary sm => Some sm | _ => acc end)
                            lines (summary s).
Proof.
  induction lines as [|l t IH]; intros s Hid; cbn [map fold_left]; [tauto|].
  destruct (on_line_fields n l s Hid) as (E1 & E2 & E3).
  destruct (IH (on_line n l s) E1) as (F1 & F2 & F3).
  cbn [scan_step]. split; [exact F1|]. split; [rewrite F2; exact E2|].
  rewrite F3, E3. reflexivity.
Qed.

(** X12: a scan [n] that no later [ScanStart] supersedes ends, whatever ran
    before it and whatever callbacks of older scans arrive in between, with
    [isLoading] false and an empty status; its error is unset when its stream
    resolved and is the rejection message when it failed (after the failure
    toast), and its summary is the one of its last summary line (unset if
    there is none). *)
Theorem scan_end_state (tr post : list scan_event) (s : clean_state) (lines : list jstr)
    (m : jstr) :
  let n := S (currentScanId (run_events tr s)) in
  let f := run_events (tr ++ ScanStart :: post) s in
  ~ In ScanStart post ->
  (filter (of_scan n) post = map (ScanLine n) lines ++ [ScanResolved n] ->
     isLoading f = false /\ scanStatus f = [] /\ error f = None
     /\ summary f = last_summary lines)
  /\ (filter (of_scan n) post = map (ScanLine n) lines ++ [ScanRejected n m; ScanToastShown n] ->
     isLoading f = false /\ scanStatus f = [] /\ error f = Some m
     /\ summary f = last_summary lines).
Proof.
  cbv zeta. intros Hno.
  assert (Hrun : run_events (tr ++ ScanStart :: post) s
                 = run_events (filter (of_scan (S (currentScanId (run_events tr s)))) post)
                              (start_state (S (currentScanId (run_events tr s))))).
  { unfold run_events at 1. rewrite fold_left_app. cbn [fold_left scan_step].
    fold (run_events tr s).
    exact (run_without_start post (start_state (S (currentScanId (run_events tr s)))) Hno). }
  rewrite Hrun. set (n := S (currentScanId (run_events tr s))).
  destruct (scan_lines_fields n lines (start_state n) eq_refl) as (E1 & E2 & E3).
  set (s1 := fold_left scan_step (map (ScanLine n) lines) (start_state n)) in *.
  destruct (commit_current_fields s1) as (F1 & F2 & F3).
  split; intros Hf; rewrite Hf; unfold run_events; rewrite fold_left_app; fold s1;
    cbn [fold_left scan_step].
  - unfold on_resolved. rewrite E1, Nat.eqb_refl. cbn [negb].
    unfold finally_block. rewrite F1, E1, Nat.eqb_refl. cbn.
    rewrite F2, F3, E2, E3. repeat split.
  - unfold on_rejected. rewrite E1, Nat.eqb_refl. cbn [negb].
    unfold finally_block. cbn. rewrite Nat.eqb_refl. cbn.
    rewrite E3. repeat split.
Qed.

Lemma scan_end_state_witness :
  ~ In ScanStart [ScanLine 1 (s2j "x"); ScanLine 2 (s2j "y"); ScanResolved 1; ScanResolved 2]
  /\ filter (of_scan 2) [ScanLine 1 (s2j "x"); ScanLine 2 (s2j "y"); ScanResolved 1; ScanResolved 2]
     = map (ScanLine 2) [s2j "y"] ++ [ScanResolved 2]
  /\ isLoading (run_events ([ScanStart] ++ ScanStart
        :: [ScanLine 1 (s2j "x"); ScanLine 2 (s2j "y"); ScanResolved 1; ScanResolved 2])
        initial_state) = false.
Proof.
  assert (H1 : ~ In ScanStart [ScanLine 1 (s2j "x"); ScanLine 2 (s2j "y"); ScanResolved 1;
                               ScanResolved 2])
    by (simpl; intros [H|[H|[H|[H|H]]]]; discriminate || contradiction).
  assert (H2 : filter (of_scan 2) [ScanLine 1 (s2j "x"); ScanLine 2 (s2j "y"); ScanResolved 1;
                                   ScanResolved 2]
               = map (ScanLine 2) [s2j "y"] ++ [ScanResolved 2]) by reflexivity.
  split; [exact H1|]. split; [exact H2|].
  exact (proj1 (proj1 (scan_end_state [ScanStart]
           [ScanLine 1 (s2j "x"); ScanLine 2 (s2j "y"); ScanResolved 1; ScanResolved 2]
           initial_state [s2j "y"] [] H1) H2)).
Defined.

(** ** The streaming reader after a timeout *)

Lemma stream_fold_resolved (es : list proc_event) (st1 st2 : stream_state) :
  buffer st1 = buffer st2 -> delivered st1 = delivered st2 ->
  buffer (fold_left stream_step es st1) = buffer (fold_left stream_step es st2)
  /\ delivered (fold_left stream_step es st1) = delivered (fold_left stream_step es st2).
Proof.
  revert st1 st2. induction es as [|e es IH]; intros st1 st2 Hb Hd; cbn [fold_left]; [tauto|].
  apply IH; destruct e as [chunk| |]; unfold stream_step; rewrite ?Hb;
    try destruct (pop _); cbn; rewrite ?Hd, ?Hb; reflexivity.
Qed.

(** X13: the timeout of [spawnMoStreaming] resolves the promise without
    flushing or dropping output: the lines passed to [onLine] and the pending
    buffer are the same as with no timeout, whatever arrives after it. *)
Theorem stream_timeout_drops_nothing (es1 es2 : list proc_event) :
  buffer (run_stream (es1 ++ PTimeout :: es2)) = buffer (run_stream (es1 ++ es2))
  /\ delivered (run_stream (es1 ++ PTimeout :: es2)) = delivered (run_stream (es1 ++ es2))
  /\ resolved (run_stream (es1 ++ PTimeout :: es2)) = true.
Proof.
  unfold run_stream. rewrite !fold_left_app. cbn [fold_left].
  split; [|split].
  - apply stream_fold_resolved; reflexivity.
  - apply stream_fold_resolved; reflexivity.
  - assert (G : forall es st, resolved st = true -> resolved (fold_left stream_step es st) = true).
    { induction es as [|e es IH]; intros st H; cbn [fold_left]; [exact H|].
      apply IH. destruct e as [chunk| |]; cbn; [|reflexivity|reflexivity].
      unfold stream_step. destruct (pop _). exact H. }
    apply G. reflexivity.
Qed.

(** ** Depth and names the walker never goes past *)

Lemma walk_reach (targets : jstr -> bool) (maxDepth : nat) (node : fs_node) :
  forall dir d,
  (forall it, In it (fst (walk targets maxDepth dir node d)) ->
     exists mid name, item_path it = dir ++ mid ++ [name] /\ (d + length mid <= maxDepth)%nat
       /\ skipped targets name = false /\ forall x, In x mid -> skipped targets x = false)
  /\ (forall v, In v (snd (walk targets maxDepth dir node d)) -> reach_below targets maxDepth d dir v).
Proof.
  induction node as [n rd ents IH|n] using fs_node_ind'; intros dir d; [|split; intros ? []].
  rewrite walk_dir_eq.
  destruct (maxDepth <? d)%nat eqn:Hdep; [split; intros ? []|].
  apply Nat.ltb_ge in Hdep.
  destruct (negb rd).
  { split; [intros ? []|]. intros v [<-|[]]. exists [].
    split; [rewrite app_nil_r; reflexivity|]. split; [simpl; lia | intros ? []]. }
  assert (Hloop : forall es, Forall (fun t => forall dir d,
     (forall it, In it (fst (walk targets maxDepth dir t d)) ->
        exists mid name, item_path it = dir ++ mid ++ [name] /\ (d + length mid <= maxDepth)%nat
          /\ skipped targets name = false /\ forall x, In x mid -> skipped targets x = false)
     /\ (forall v, In v (snd (walk targets maxDepth dir t d)) -> reach_below targets maxDepth d dir v)) es ->
     (forall it, In it (fst (walk_loop targets maxDepth dir d es)) ->
        exists mid name, item_path it = dir ++ mid ++ [name] /\ (d + length mid <= maxDepth)%nat
          /\ skipped targets name = false /\ forall x, In x mid -> skipped targets x = false)
     /\ (forall v, In v (snd (walk_loop targets maxDepth dir d es)) -> reach_below targets maxDepth d dir v)).
  { induction es as [|e es IHes]; intros Hf; [split; intros ? []|].
    inversion Hf as [|? ? He Hes]; subst. specialize (IHes Hes).
    destruct e as [name rd' sub|name]; cbn [walk_loop]; [|exact IHes].
    fold (walk_loop targets maxDepth dir d es).
    destruct (skipped targets name) eqn:Hs; [exact IHes|].
    destruct (targets name) eqn:Ht.
    - destruct (walk_loop targets maxDepth dir d es) as [r v] eqn:E. simpl in IHes |- *.
      split; [|exact (proj2 IHes)].
      intros it [<-|Hin]; [|exact (proj1 IHes it Hin)].
      exists [], name. simpl. split; [reflexivity|]. split; [lia|].
      split; [exact Hs | intros ? []].
    - destruct (He (dir ++ [name]) (S d)) as [Hi Hv].
      destruct (walk targets maxDepth (dir ++ [name]) (FDir name rd' sub) (S d)) as [r1 v1].
      destruct (walk_loop targets maxDepth dir d es) as [r2 v2]. simpl in *.
      split.
      + intros it Hin. apply in_app_or in Hin as [Hin|Hin]; [|exact (proj1 IHes it Hin)].
        destruct (Hi it Hin) as [mid [t [Hp [Hl [Hst Hmid]]]]].
        exists (name :: mid), t. split; [rewrite Hp, <- app_assoc; reflexivity|].
        split; [simpl; lia|]. split; [exact Hst|].
        intros x [<-|Hx]; [exact Hs | exact (Hmid x Hx)].
      + intros v Hin. apply in_app_or in Hin as [Hin|Hin]; [|exact (proj2 IHes v Hin)].
        destruct (Hv v Hin) as [mid [Hp [Hl Hmid]]].
        exists (name :: mid). split; [rewrite Hp, <- app_assoc; reflexivity|].
        split; [simpl; lia|].
        intros x [<-|Hx]; [exact Hs | exact (Hmid x Hx)]. }
  destruct (Hloop ents IH) as [Hi Hv].
  destruct (walk_loop targets maxDepth dir d ents) as [r v]. simpl in *.
  split; [exact Hi|]. intros v' [<-|Hin]; [|exact (Hv v' Hin)].
  exists []. split; [rewrite app_nil_r; reflexivity|]. split; [simpl; lia | intros ? []].
Qed.

(** X14: the walk of [discoverPurgeTargets] ([findPurgeTargetsNative] from
    depth 1 to 4) reads no directory more than three levels below the search
    path and reports no item deeper than four levels; every directory it
    enters below the search path, and every reported item, is named neither
    [Library] nor [System], nor hidden unless it is a target name. *)
Theorem findPurgeTargets_bounded (root : list jstr) (node : fs_node) :
  (forall v, In v (snd (findPurgeTargets root node)) ->
     exists mid, v = root ++ mid /\ (length mid <= 3)%nat
       /\ forall x, In x mid -> skipped is_target x = false)
  /\ (forall it, In it (fst (findPurgeTargets root node)) ->
     exists mid name, item_path it = root ++ mid ++ [name] /\ (length mid <= 3)%nat
       /\ Forall (fun x => skipped is_target x = false) (mid ++ [name])).
Proof.
  unfold findPurgeTargets. destruct (walk_reach is_target 4 node root 1) as [Hi Hv].
  split.
  - intros v Hin. destruct (Hv v Hin) as [mid [Hp [Hl Hm]]].
    exists mid. split; [exact Hp|]. split; [lia | exact Hm].
  - intros it Hin. destruct (Hi it Hin) as [mid [name [Hp [Hl [Hs Hm]]]]].
    exists mid, name. split; [exact Hp|]. split; [lia|].
    apply Forall_forall. intros x Hx. apply in_app_or in Hx as [Hx|[<-|[]]]; auto.
Qed.
